(** * storyscript/story.py: the [Story] class

    A shallow embedding of [src/storyscript/story.py] and the properties of
    its comment stripper, line accessors, module resolver and of the
    parse / compile / process life cycle.

    Text is a Python [str].  Characters are modelled by [ascii], read as the
    code points below 256; a [str] is a [string], and the regular expression
    engine works on [list ascii]. *)

From Stdlib Require Import String Ascii List Bool Arith ZArith Lia.
Import ListNotations.

Set Implicit Arguments.

(** ** Characters *)

Definition code (a : ascii) : nat := nat_of_ascii a.

(** [\s] of a [str] pattern: the characters for which [str.isspace] holds. *)
Definition is_space (a : ascii) : bool :=
  let n := code a in
  ((9 <=? n) && (n <=? 13)) || ((28 <=? n) && (n <=? 32))
  || (n =? 133) || (n =? 160).

Definition newline : ascii := "010"%char.
Definition hash : ascii := "#"%char.
Definition backslash : ascii := "\"%char.
Definition quote : ascii := "034"%char.

(** The line break as a text. *)
Definition lf : string := String newline EmptyString.

(** [.] without DOTALL: anything but a newline. *)
Definition is_dot (a : ascii) : bool := negb (Ascii.eqb a newline).

(** ** Regular expressions of [re], as far as [clean_source] uses them *)

Module Re.

Inductive regex : Type :=
| Lit (a : ascii)                  (* a literal character *)
| Class (p : ascii -> bool)        (* a character class: [\s], [.] *)
| Cat (r1 r2 : regex)              (* r1 r2 *)
| Alt (r1 r2 : regex)              (* r1|r2, r1 tried first *)
| Group (r : regex)                (* (r); the replacement uses no group *)
| Star (r : regex)                 (* r*, greedy *)
| Plus (r : regex)                 (* r+, greedy *)
| Behind (lit : list ascii)        (* (?<=lit) *)
| Ahead (r : regex).               (* (?=r) *)

(** A position in the subject: the characters before it, nearest first,
    and the characters from it on. *)
Record cursor : Type := Cursor { before : list ascii; after : list ascii }.

Definition pos (c : cursor) : nat := length (before c).

Definition step (c : cursor) : option (ascii * cursor) :=
  match after c with
  | [] => None
  | a :: rest => Some (a, Cursor (a :: before c) rest)
  end.

(** Does [l] start with [p]? *)
Fixpoint starts_with (p l : list ascii) : bool :=
  match p, l with
  | [], _ => true
  | _ :: _, [] => false
  | a :: p', b :: l' => Ascii.eqb a b && starts_with p' l'
  end.

Definition orelse (x : option cursor) (y : unit -> option cursor) : option cursor :=
  match x with
  | Some c => Some c
  | None => y tt
  end.

(** The greedy repeat of [sre], once the minimum count is reached: try one
    more [item], unless the last optional item began at this very position
    (the zero-width protection), and fall back to the continuation [k].
    Every item but one consumes a character, so one unit of [fuel] more than
    there are characters left is enough (see [exec_fuel]). *)
Fixpoint until (item : (cursor -> option cursor) -> cursor -> option cursor)
    (k : cursor -> option cursor) (fuel : nat) (last : option nat)
    (c : cursor) {struct fuel} : option cursor :=
  let again :=
    match fuel with
    | O => None
    | S fuel' =>
        if match last with Some p => Nat.eqb p (pos c) | None => false end
        then None
        else item (until item k fuel' (Some (pos c))) c
    end in
  orelse again (fun _ => k c).

(** The backtracking matcher, in continuation-passing style: [exec n r k c]
    matches [r] at [c] and hands every way of doing so, in priority order,
    to [k] until [k] succeeds; [n] is the fuel of its repeats. *)
Fixpoint exec (n : nat) (r : regex) (k : cursor -> option cursor) (c : cursor)
    {struct r} : option cursor :=
  match r with
  | Lit a =>
      match step c with
      | Some (x, c') => if Ascii.eqb x a then k c' else None
      | None => None
      end
  | Class p =>
      match step c with
      | Some (x, c') => if p x then k c' else None
      | None => None
      end
  | Cat r1 r2 => exec n r1 (exec n r2 k) c
  | Alt r1 r2 => orelse (exec n r1 k c) (fun _ => exec n r2 k c)
  | Group r1 => exec n r1 k c
  | Star r1 => until (exec n r1) k n None c
  | Plus r1 => exec n r1 (until (exec n r1) k n None) c
  | Behind lit => if starts_with (rev lit) (before c) then k c else None
  | Ahead r1 =>
      match exec n r1 (fun c' => Some c') c with
      | Some _ => k c
      | None => None
      end
  end.

(** [c'] lies at or after [c] in the same subject. *)
Definition reach (c c' : cursor) : Prop :=
  exists l, after c = l ++ after c' /\ before c' = rev l ++ before c.

(** A matcher that consults its continuation only at or after the position
    it starts from. *)
Definition local (item : (cursor -> option cursor) -> cursor -> option cursor)
    : Prop :=
  forall k k' c, (forall c', reach c c' -> k c' = k' c') -> item k c = item k' c.

(** Patterns all of whose matches span at least one character, by their
    shape. *)
Fixpoint consumes (r : regex) : bool :=
  match r with
  | Lit _ | Class _ => true
  | Cat r1 r2 => consumes r1 || consumes r2
  | Alt r1 r2 => consumes r1 && consumes r2
  | Group r1 | Plus r1 => consumes r1
  | Star _ | Behind _ | Ahead _ => false
  end.

(** A match of [r] that starts exactly here: the number of characters it
    spans. *)
Definition match_here (r : regex) (pre suf : list ascii) : option nat :=
  match exec (S (length suf)) r (fun c' => Some c') (Cursor pre suf) with
  | Some c' => Some (length suf - length (after c'))
  | None => None
  end.

(** [re.sub(r, repl, text)] from the position after [pre]; [skip] characters
    still belong to the match in progress.  A match that spans no character
    is treated as no match: the pattern of [clean_source] has none (see
    [expression_consumes]). *)
Fixpoint scan (r : regex) (repl pre suf : list ascii) (skip : nat)
    {struct suf} : list ascii :=
  match suf with
  | [] => []
  | a :: suf' =>
      match skip with
      | S n => scan r repl (a :: pre) suf' n
      | O =>
          match match_here r pre suf with
          | Some (S n) => repl ++ scan r repl (a :: pre) suf' n
          | _ => a :: scan r repl (a :: pre) suf' O
          end
      end
  end.

Definition sub (r : regex) (repl text : string) : string :=
  string_of_list_ascii
    (scan r (list_ascii_of_string repl) [] (list_ascii_of_string text) O).

End Re.

(** ** [Story.clean_source] *)

(** The pattern of [clean_source], written here with blanks between its
    parts: the lookbehind (?<=###), then \s, then the group ( .* | \\n )
    repeated by +, then the lookahead (?=\s###); or else # followed by the
    group ( .* ).  The pattern is a raw string, so \\n is an escaped
    backslash followed by the letter n, not a line break. *)
Definition block_comment : Re.regex :=
  Re.Cat (Re.Behind [hash; hash; hash])
    (Re.Cat (Re.Class is_space)
      (Re.Cat
        (Re.Plus (Re.Group (Re.Alt (Re.Star (Re.Class is_dot))
                                   (Re.Cat (Re.Lit backslash) (Re.Lit "n"%char)))))
        (Re.Ahead (Re.Cat (Re.Class is_space)
                    (Re.Cat (Re.Lit hash) (Re.Cat (Re.Lit hash) (Re.Lit hash))))))).

Definition line_comment : Re.regex :=
  Re.Cat (Re.Lit hash) (Re.Group (Re.Star (Re.Class is_dot))).

Definition expression : Re.regex := Re.Alt block_comment line_comment.

Definition clean_source (source : string) : string :=
  Re.sub expression EmptyString source.


(** ** Python values the class relies on *)

(** Exception classes named by [story.py], and those of the interpreter that
    its expressions can raise. *)
Inductive exn_class : Type :=
| UnexpectedToken
| UnexpectedCharacters
| UnexpectedInput
| CompilerError
| StorySyntaxError
| FileNotFoundError
| AttributeError
| IndexError
| OtherError (name : string).

(** An exception instance; [exit()] raises [SystemExit] with the code it is
    given, [None] when called without one. *)
Inductive exn : Type :=
| Exception (cls : exn_class) (args : string)
| SystemExit (code : option Z).

Definition exn_class_eqb (c d : exn_class) : bool :=
  match c, d with
  | UnexpectedToken, UnexpectedToken
  | UnexpectedCharacters, UnexpectedCharacters
  | UnexpectedInput, UnexpectedInput
  | CompilerError, CompilerError
  | StorySyntaxError, StorySyntaxError
  | FileNotFoundError, FileNotFoundError
  | AttributeError, AttributeError
  | IndexError, IndexError => true
  | OtherError n, OtherError m => String.eqb n m
  | _, _ => false
  end.

(** [issubclass]: in lark the two lexer and parser errors derive from
    [UnexpectedInput]. *)
Definition issubclass (c d : exn_class) : bool :=
  exn_class_eqb c d
  || match c, d with
     | UnexpectedToken, UnexpectedInput
     | UnexpectedCharacters, UnexpectedInput => true
     | _, _ => false
     end.

(** [isinstance(e, d)], which an [except d] clause tests. *)
Definition isinstance (e : exn) (d : exn_class) : bool :=
  match e with
  | Exception c _ => issubclass c d
  | SystemExit _ => false
  end.

(** The status the interpreter ends with when [SystemExit] reaches the top:
    the code, and 0 for [None]. *)
Definition exit_status (code : option Z) : Z :=
  match code with
  | Some z => z
  | None => 0%Z
  end.

Inductive result (A : Type) : Type :=
| Return (a : A)
| Raise (e : exn).

Arguments Return {A} a.
Arguments Raise {A} e.

(** [l[i]] *)
Definition getitem (A : Type) (l : list A) (i : Z) : result A :=
  let n := Z.of_nat (length l) in
  let j := if (i <? 0)%Z then (i + n)%Z else i in
  if ((j <? 0) || (n <=? j))%Z
  then Raise (Exception IndexError "list index out of range")
  else match nth_error l (Z.to_nat j) with
       | Some x => Return x
       | None => Raise (Exception IndexError "list index out of range")
       end.

(** The bound of a slice, brought into [0, n]. *)
Definition adjust (n i : Z) : Z :=
  if (i <? 0)%Z then Z.max 0 (i + n) else Z.min i n.

(** [l[start:stop]] *)
Definition getslice (A : Type) (l : list A) (start stop : Z) : list A :=
  let n := Z.of_nat (length l) in
  let a := adjust n start in
  let b := adjust n stop in
  firstn (Z.to_nat (b - a)) (skipn (Z.to_nat a) l).

(** The line boundaries of [str.splitlines] among the code points below 256. *)
Definition is_linebreak (a : ascii) : bool :=
  let n := code a in
  ((10 <=? n) && (n <=? 13)) || ((28 <=? n) && (n <=? 30)) || (n =? 133).

Definition carriage_return : ascii := "013"%char.

(** [cur] holds the current line, last character first. *)
Fixpoint splitlines_from (cur text : list ascii) {struct text}
    : list (list ascii) :=
  match text with
  | [] => match cur with [] => [] | _ :: _ => [rev cur] end
  | a :: rest =>
      if is_linebreak a then
        rev cur ::
        match rest with
        | b :: rest' =>
            if Ascii.eqb a carriage_return && Ascii.eqb b newline
            then splitlines_from [] rest'
            else splitlines_from [] rest
        | [] => splitlines_from [] rest
        end
      else splitlines_from (a :: cur) rest
  end.

(** [text.splitlines(keepends=False)] *)
Definition splitlines (text : string) : list string :=
  map string_of_list_ascii (splitlines_from [] (list_ascii_of_string text)).

(** [text[1:-1]] *)
Definition strip_ends (text : string) : string :=
  string_of_list_ascii (getslice (list_ascii_of_string text) 1 (-1)).

(** [text.endswith(suffix)] *)
Definition endswith (text suffix : string) : bool :=
  Re.starts_with (rev (list_ascii_of_string suffix))
                 (rev (list_ascii_of_string text)).

(** ** Effects: state and exceptions *)

(** A computation over a state [S] that returns or raises; the state it
    leaves is kept in both cases. *)
Definition M (S A : Type) : Type := S -> result A * S.

Definition ret (S A : Type) (a : A) : M S A := fun s => (Return a, s).

Definition raise (S A : Type) (e : exn) : M S A := fun s => (Raise e, s).

Definition bind (S A B : Type) (m : M S A) (f : A -> M S B) : M S B :=
  fun s =>
    match m s with
    | (Return a, s') => f a s'
    | (Raise e, s') => (Raise e, s')
    end.

(** [try: m  except ...: h]: [h e] is the body of the first clause that
    catches [e], if there is one. *)
Definition try (S A : Type) (m : M S A) (h : exn -> option (M S A)) : M S A :=
  fun s =>
    match m s with
    | (Return a, s') => (Return a, s')
    | (Raise e, s') =>
        match h e with
        | Some handler => handler s'
        | None => (Raise e, s')
        end
    end.

Definition get (S : Type) : M S S := fun s => (Return s, s).

Definition modify (S : Type) (f : S -> S) : M S unit := fun s => (Return tt, f s).

(** The outcome of a call into a collaborator. *)
Definition call (S A : Type) (r : result A) : M S A := fun s => (r, s).

Arguments ret {S A} a _.
Arguments raise {S A} e _.
Arguments bind {S A B} m f _.
Arguments try {S A} m h _.
Arguments get {S} _.
Arguments modify {S} f _.
Arguments call {S A} r _.

Declare Scope story_scope.
Delimit Scope story_scope with story.
Notation "x <- m ;; k" := (bind m (fun x => k))
  (at level 61, m at next level, right associativity) : story_scope.
Notation "m ;; k" := (bind m (fun _ => k))
  (at level 61, right associativity) : story_scope.

(** [exit()] *)
Definition exit (S A : Type) : M S A := raise (SystemExit None).

Arguments exit {S A} _.

(** ** The class [Story] *)

Section Story.

(** The collaborators of the class, which [story.py] imports. *)
Variables Ebnf Tree Artifact : Type.

(** [Parser(ebnf=ebnf).parse(text, debug=debug)] *)
Variable parser_parse : option Ebnf -> string -> bool -> result Tree.

(** [Compiler.compile(tree, debug=debug)] *)
Variable compiler_compile : Tree -> bool -> result Artifact.

(** [StoryError(error, path, story).echo()] *)
Variable echo : exn -> option string -> string -> result unit.

(** [io.open(path, 'r')] followed by [file.read()] *)
Variable io_read : string -> result string.

(** [os.path.abspath(path)] *)
Variable abspath : string -> string.

(** The tree capability that [modules] uses: [tree.find_data(tag)], the
    nodes in the order the tree yields them, [node.string], [node.child(n)]
    and [token.value]. *)
Variable find_data : Tree -> string -> list Tree.
Variable node_string : Tree -> result Tree.
Variable node_child : Tree -> Z -> result Tree.
Variable node_value : Tree -> result string.

(** What the process does that its caller can see, oldest first. *)
Inductive event : Type :=
| Printed (line : string)
| ParserParse (ebnf : option Ebnf) (text : string) (debug : bool)
| CompilerCompile (tree : Tree) (debug : bool)
| Echoed (error : exn) (path : option string) (story : string).

(** An instance: [story] and [path] are set by [__init__]; [tree] and
    [compiled] are attributes that exist once assigned. *)
Record Story : Type := {
  story : string;
  path : option string;
  tree : option Tree;
  compiled : option Artifact
}.

(** [Story(story, path=path)] *)
Definition init (text : string) (p : option string) : Story :=
  {| story := text; path := p; tree := None; compiled := None |}.

(** The state of a method call: the instance and the trace. *)
Record state : Type := { self : Story; trace : list event }.

Definition world : Type := list event.

Definition emit (ev : event) : M state unit :=
  modify (fun st => {| self := self st; trace := trace st ++ [ev] |}).

Definition print (line : string) : M world unit :=
  modify (fun w => w ++ [Printed line]).

Definition set_tree (t : Tree) : M state unit :=
  modify (fun st =>
    {| self := {| story := story (self st); path := path (self st);
                  tree := Some t; compiled := compiled (self st) |};
       trace := trace st |}).

Definition set_compiled (a : Artifact) : M state unit :=
  modify (fun st =>
    {| self := {| story := story (self st); path := path (self st);
                  tree := tree (self st); compiled := Some a |};
       trace := trace st |}).

(** Reading an attribute that was never assigned. *)
Definition attribute (A : Type) (name : string) (field : Story -> option A)
    : M state A :=
  (st <- get ;;
   match field (self st) with
   | Some v => ret v
   | None => raise (Exception AttributeError name)
   end)%story.

Definition not_found_message (p : string) : string :=
  ("File " ++ String quote (p ++ String quote (" not found at " ++ abspath p)))%string.

Definition read (p : string) : M world string :=
  try (contents <- call (io_read p) ;; ret (clean_source contents))%story
      (fun e =>
         if isinstance e FileNotFoundError
         then Some (print (not_found_message p) ;; exit)%story
         else None).

Definition from_file (p : string) : M world Story :=
  (text <- read p ;; ret (init text (Some p)))%story.

(** A stream is what its [read()] gives. *)
Definition from_stream (stream : result string) : M world Story :=
  (text <- call stream ;; ret (init text None))%story.

Definition line (n : Z) : M state string :=
  (st <- get ;; call (getitem (splitlines (story (self st))) n))%story.

Definition slice (start end_ : Z) : M state (list string) :=
  (st <- get ;; ret (getslice (splitlines (story (self st))) start end_))%story.

Definition error (A : Type) (e : exn) (debug : bool) : M state A :=
  if debug then raise e
  else
    (st <- get ;;
     emit (Echoed e (path (self st)) (story (self st))) ;;
     call (echo e (path (self st)) (story (self st))) ;;
     exit)%story.

Arguments error {A} e debug _.

Definition parse (ebnf : option Ebnf) (debug : bool) : M state unit :=
  try (st <- get ;;
       emit (ParserParse ebnf (story (self st)) debug) ;;
       t <- call (parser_parse ebnf (story (self st)) debug) ;;
       set_tree t)%story
      (fun e =>
         if isinstance e UnexpectedToken then Some (error e debug)
         else if isinstance e UnexpectedInput then Some (error e debug)
         else None).

(** The suffix of a module. *)
Definition story_suffix : string := ".story".

Definition module_path (literal : string) : string :=
  let p := strip_ends literal in
  if negb (endswith p story_suffix) then (p ++ story_suffix)%string else p.

(** The body of the loop of [modules], on the list built so far. *)
Definition modules_step (acc : list string) (module : Tree)
    : M state (list string) :=
  (s <- call (node_string module) ;;
   c <- call (node_child s 0) ;;
   v <- call (node_value c) ;;
   ret (acc ++ [module_path v]))%story.

Fixpoint modules_loop (acc : list string) (nodes : list Tree)
    : M state (list string) :=
  match nodes with
  | [] => ret acc
  | module :: rest =>
      (acc' <- modules_step acc module ;; modules_loop acc' rest)%story
  end.

Definition modules : M state (list string) :=
  (t <- attribute "tree" tree ;;
   modules_loop [] (find_data t "imports"))%story.

Definition compile (debug : bool) : M state unit :=
  try (t <- attribute "tree" tree ;;
       emit (CompilerCompile t debug) ;;
       a <- call (compiler_compile t debug) ;;
       set_compiled a)%story
      (fun e =>
         if isinstance e CompilerError || isinstance e StorySyntaxError
         then Some (error e debug)
         else None).

Definition process (ebnf : option Ebnf) (debug : bool) : M state Artifact :=
  (parse ebnf debug ;;
   compile debug ;;
   attribute "compiled" compiled)%story.

End Story.

Arguments init {Tree Artifact} text p.
Arguments line {Ebnf Tree Artifact} n _.
Arguments slice {Ebnf Tree Artifact} start end_ _.
Arguments read {Ebnf Tree} io_read abspath p _.
Arguments from_file {Ebnf Tree Artifact} io_read abspath p _.
Arguments from_stream {Ebnf Tree Artifact} stream _.
Arguments Printed {Ebnf Tree} line.
Arguments Echoed {Ebnf Tree} error path story.
Arguments CompilerCompile {Ebnf Tree} tree debug.
Arguments ParserParse {Ebnf Tree} ebnf text debug.

(** The literal of an import node: [module.string.child(0).value]. *)
Definition literal_of (Tree : Type) (node_string : Tree -> result Tree)
    (node_child : Tree -> Z -> result Tree)
    (node_value : Tree -> result string) (module : Tree) : result string :=
  match node_string module with
  | Raise e => Raise e
  | Return s =>
      match node_child s 0%Z with
      | Raise e => Raise e
      | Return c => node_value c
      end
  end.

(** A syntax failure, as [parse] catches it. *)
Definition syntax_failure (e : exn) : bool :=
  isinstance e UnexpectedToken || isinstance e UnexpectedInput.

(** The calls of [Compiler.compile] among the events. *)
Definition is_compile_call (Ebnf Tree : Type) (ev : event Ebnf Tree) : bool :=
  match ev with
  | CompilerCompile _ _ => true
  | _ => false
  end.

(** The texts handed to [Parser.parse], oldest first. *)
Fixpoint parsed_texts (Ebnf Tree : Type) (tr : list (event Ebnf Tree))
    : list string :=
  match tr with
  | [] => []
  | ParserParse _ text _ :: rest => text :: parsed_texts rest
  | _ :: rest => parsed_texts rest
  end.

(** ** A small instance of the collaborators, to run the class on *)

Module Sample.

(** Modelled from the spec: the tree class of the parser package is not
    among the sources.  A rose tree with tokens at its leaves, offering what
    the spec lists: the nodes that carry a tag, a node's nth child and a
    token's literal value.  An access that finds nothing fails the way an
    attribute lookup on a missing attribute does. *)
#[warnings="-register-all"]
Inductive node : Type :=
| Token (value : string)
| Node (data : string) (children : list node).

Definition is_tagged (tag : string) (t : node) : bool :=
  match t with
  | Node d _ => String.eqb d tag
  | Token _ => false
  end.

Fixpoint subtrees (t : node) : list node :=
  match t with
  | Token _ => []
  | Node _ children => t :: flat_map subtrees children
  end.

Definition find_data (t : node) (tag : string) : list node :=
  filter (is_tagged tag) (subtrees t).

Definition missing (A : Type) (name : string) : result A :=
  Raise (Exception AttributeError name).

Arguments missing {A} name.

Definition node_string (t : node) : result node :=
  match t with
  | Node _ children =>
      match filter (is_tagged "string") children with
      | s :: _ => Return s
      | [] => missing "child"
      end
  | Token _ => missing "string"
  end.

Definition node_child (t : node) (n : Z) : result node :=
  match t with
  | Node _ children =>
      match nth_error children (Z.to_nat n) with
      | Some c => Return c
      | None => missing "value"
      end
  | Token _ => missing "child"
  end.

Definition node_value (t : node) : result string :=
  match t with
  | Token v => Return v
  | Node _ _ => missing "value"
  end.

(** An import node, as [modules] expects it. *)
Definition import_node (literal : string) : node :=
  Node "imports" [Node "string" [Token literal]].

(** A parser that reads one import per line and accepts nothing when given
    a grammar of its own. *)
Definition parser_parse (ebnf : option string) (text : string) (debug : bool)
    : result node :=
  match ebnf with
  | Some g => Raise (Exception UnexpectedToken g)
  | None => Return (Node "start" (map import_node (splitlines text)))
  end.

Definition compiler_compile (t : node) (debug : bool) : result nat :=
  match t with
  | Node _ children => Return (length children)
  | Token v => Raise (Exception CompilerError v)
  end.

Definition echo (e : exn) (p : option string) (text : string) : result unit :=
  Return tt.

(** A file system with one file. *)
Definition io_read (p : string) : result string :=
  if String.eqb p "hello.story"
  then Return ("import 'a' # first" ++ lf ++ "import 'b'")%string
  else Raise (Exception FileNotFoundError p).

Definition abspath (p : string) : string := ("/stories/" ++ p)%string.

Definition ev : Type := event string node.
Definition st : Type := state string node nat.

Definition start (text : string) : st :=
  {| self := init text None; trace := [] |}.

(** A story whose tree is [t]. *)
Definition parsed (t : node) : st :=
  {| self := {| story := EmptyString; path := None; tree := Some t;
                compiled := None |};
     trace := [] |}.

(** The methods of the class over these collaborators. *)
Definition parse : option string -> bool -> M st unit :=
  parse parser_parse echo.
Definition process : option string -> bool -> M st nat :=
  process parser_parse compiler_compile echo.
Definition modules : M st (list string) :=
  modules find_data node_string node_child node_value.
Definition read : string -> M (list ev) string := read io_read abspath.
Definition from_file : string -> M (list ev) (Story node nat) :=
  from_file io_read abspath.

Definition single_quoted (body : string) : string :=
  String "'"%char (body ++ "'")%string.

Definition abc : string := ("a" ++ lf ++ "b" ++ lf ++ "c")%string.

(** A directly made story with a comment, and what the parser raises on it
    under a grammar of its own. *)
Definition raw : string := "x = 1 # one".
Definition failure : exn := Exception UnexpectedToken "g".

(** A tree with three imports, and one whose second import has no string. *)
Definition three : node :=
  Node "start" [import_node (single_quoted "a");
                import_node (single_quoted "b.story");
                import_node (single_quoted "a")].

Definition broken : node :=
  Node "start" [import_node (single_quoted "a"); Node "imports" [];
                import_node (single_quoted "b")].

End Sample.

(** ** Collaborators that fail in other ways *)

Module Faulty.

(** A parser that breaks down on every text, with an error that is no
    syntax failure. *)
Definition crash : exn := Exception (OtherError "RecursionError") "deep".

Definition parser_parse (ebnf : option string) (text : string) (debug : bool)
    : result Sample.node :=
  Raise crash.

(** A file system that refuses every file. *)
Definition denied : exn := Exception (OtherError "PermissionError") "denied".

Definition io_read (p : string) : result string := Raise denied.

End Faulty.

(** [Parser(ebnf=ebnf).lex(self.story)], the lexer of the parser package
    being [parser_lex]. *)
Definition lex (Ebnf Tree Artifact Tokens : Type)
    (parser_lex : option Ebnf -> string -> result Tokens)
    (ebnf : option Ebnf) : M (state Ebnf Tree Artifact) Tokens :=
  (st <- get ;; call (parser_lex ebnf (story (self st))))%story.

(** [separator.join(lines)] with a separator after every line. *)
Definition unlines (lines : list string) : string :=
  fold_right (fun l rest => (l ++ lf ++ rest)%string) EmptyString lines.

(** A text without line boundaries. *)
Definition one_line (text : string) : Prop :=
  Forall (fun a => is_linebreak a = false) (list_ascii_of_string text).

(** ** The pattern of [clean_source] in closed form *)

(** What follows restates, without the matcher, where the pattern matches
    and how far; [match_here_closed] proves it equal to the matcher on the
    pattern. *)
Module Closed.

(** The two parts of the block alternative that repeat and look ahead. *)
Definition body_item : Re.regex :=
  Re.Group (Re.Alt (Re.Star (Re.Class is_dot))
                   (Re.Cat (Re.Lit backslash) (Re.Lit "n"%char))).

Definition marker : Re.regex :=
  Re.Cat (Re.Class is_space)
    (Re.Cat (Re.Lit hash) (Re.Cat (Re.Lit hash) (Re.Lit hash))).

(** A blank followed by [###] stands here. *)
Definition look (l : list ascii) : bool :=
  match l with
  | s :: h1 :: h2 :: h3 :: _ =>
      is_space s && Ascii.eqb h1 hash && Ascii.eqb h2 hash && Ascii.eqb h3 hash
  | _ => false
  end.

(** The number of characters up to the end of the line. *)
Fixpoint dot_run (l : list ascii) : nat :=
  match l with
  | a :: l' => if is_dot a then S (dot_run l') else 0
  | [] => 0
  end.

(** The last place on this line, counted from here, at which a blank and
    [###] follow. *)
Fixpoint last_mark (l : list ascii) : option nat :=
  match l with
  | [] => None
  | a :: l' =>
      let here := if look l then Some 0 else None in
      if is_dot a
      then match last_mark l' with Some j => Some (S j) | None => here end
      else here
  end.

(** The length of the match that starts here, if there is one: at a [#],
    the rest of the line; at a blank that follows [###], up to the last
    blank of the line that [###] follows. *)
Definition match_closed (pre suf : list ascii) : option nat :=
  match suf with
  | [] => None
  | a :: l =>
      if Ascii.eqb a hash then Some (S (dot_run l))
      else if Re.starts_with [hash; hash; hash] pre && is_space a
           then option_map S (last_mark l)
           else None
  end.

(** The continuation of the repeat: the lookahead, then the end. *)
Definition accept (c : Re.cursor) : option Re.cursor :=
  if look (Re.after c) then Some c else None.

(** The same as a cursor: where the repeat of the block alternative ends. *)
Fixpoint far (pre l : list ascii) : option Re.cursor :=
  match l with
  | [] => None
  | a :: l' =>
      let here := if look l then Some (Re.Cursor pre l) else None in
      if is_dot a
      then Re.orelse (far (a :: pre) l') (fun _ => here)
      else here
  end.

(** A continuation tried at every place of the line, the farthest first. *)
Fixpoint run (V : Re.cursor -> option Re.cursor) (pre l : list ascii)
    : option Re.cursor :=
  match l with
  | a :: l' =>
      if is_dot a
      then Re.orelse (run V (a :: pre) l') (fun _ => V (Re.Cursor pre l))
      else V (Re.Cursor pre l)
  | [] => V (Re.Cursor pre [])
  end.

(** Line comments alone: a [#] opens a comment that the line break ends. *)
Fixpoint strip_line_comments (in_comment : bool) (l : list ascii)
    : list ascii :=
  match l with
  | [] => []
  | a :: l' =>
      if in_comment
      then if Ascii.eqb a newline
           then a :: strip_line_comments false l'
           else strip_line_comments true l'
      else if Ascii.eqb a hash
           then strip_line_comments true l'
           else a :: strip_line_comments false l'
  end.

(** No three [#] in a row from here on, [k] of them standing just before. *)
Fixpoint triple_free (k : nat) (l : list ascii) : bool :=
  match l with
  | [] => true
  | a :: l' =>
      if Ascii.eqb a hash
      then match k with
           | S (S _) => false
           | _ => triple_free (S k) l'
           end
      else triple_free 0 l'
  end.

(** The [#] at the head of a list. *)
Fixpoint hashes (l : list ascii) : nat :=
  match l with
  | a :: l' => if Ascii.eqb a hash then S (hashes l') else 0
  | [] => 0
  end.

End Closed.

(** [l] is [m] with some elements left out. *)
Inductive subseq (A : Type) : list A -> list A -> Prop :=
| subseq_nil : subseq [] []
| subseq_keep a l m : subseq l m -> subseq (a :: l) (a :: m)
| subseq_drop a l m : subseq l m -> subseq l (a :: m).

(** * Properties *)

(** ** The matcher: fuel *)

Module ReFacts.
Import Re.

Lemma reach_refl c : reach c c.
Proof. exists []. split; reflexivity. Qed.

Lemma reach_trans c1 c2 c3 : reach c1 c2 -> reach c2 c3 -> reach c1 c3.
Proof.
  intros [l1 [A1 B1]] [l2 [A2 B2]]. exists (l1 ++ l2). split.
  - rewrite A1, A2. now rewrite app_assoc.
  - rewrite B2, B1, rev_app_distr. now rewrite app_assoc.
Qed.

Lemma reach_step c x c' : step c = Some (x, c') -> reach c c'.
Proof.
  unfold step. destruct (after c) as [|a rest] eqn:E; [discriminate|].
  intros H. injection H as <- <-. exists [a]. split; [exact E | reflexivity].
Qed.

Lemma reach_length c c' : reach c c' -> length (after c') <= length (after c).
Proof. intros [l [A _]]. rewrite A, length_app. lia. Qed.

Lemma reach_cases c c' :
  reach c c' -> c' = c \/ length (after c') < length (after c).
Proof.
  intros [[|a l] [A B]].
  - left. destruct c, c'. simpl in *. now subst.
  - right. rewrite A. simpl. rewrite length_app. lia.
Qed.

Lemma until_stuck item k n c : until item k n (Some (pos c)) c = k c.
Proof. destruct n; simpl; [reflexivity|]. now rewrite Nat.eqb_refl. Qed.

Lemma until_local item : local item -> forall n last, local (fun k => until item k n last).
Proof.
  intros Hitem n. induction n as [|n IH]; intros last k k' c H; simpl.
  - now rewrite (H c (reach_refl c)).
  - rewrite (H c (reach_refl c)).
    destruct (match last with Some p => Nat.eqb p (pos c) | None => false end);
      [reflexivity|].
    rewrite (Hitem (until item k n (Some (pos c)))
                   (until item k' n (Some (pos c))) c); [reflexivity|].
    intros c' Hc. apply IH. intros c'' Hc'. apply H. eapply reach_trans; eauto.
Qed.

Lemma exec_local r n : local (exec n r).
Proof.
  induction r as [a|p|r1 IH1 r2 IH2|r1 IH1 r2 IH2|r1 IH1|r1 IH1|r1 IH1|lit|r1 IH1];
    intros k k' c H; simpl.
  - destruct (step c) as [[x c']|] eqn:E; [|reflexivity].
    destruct (Ascii.eqb x a); [|reflexivity]. apply H. eapply reach_step; eauto.
  - destruct (step c) as [[x c']|] eqn:E; [|reflexivity].
    destruct (p x); [|reflexivity]. apply H. eapply reach_step; eauto.
  - apply IH1. intros c' Hc. apply IH2. intros c'' Hc'. apply H.
    eapply reach_trans; eauto.
  - now rewrite (IH1 k k' c H), (IH2 k k' c H).
  - now apply IH1.
  - now apply (until_local IH1).
  - apply IH1. intros c' Hc. apply (until_local IH1). intros c'' Hc'. apply H.
    eapply reach_trans; eauto.
  - now rewrite (H c (reach_refl c)).
  - now rewrite (H c (reach_refl c)).
Qed.

Lemma until_fuel item item' :
  local item' ->
  forall n m k last c,
    (forall k0 c', reach c c' -> item k0 c' = item' k0 c') ->
    length (after c) < n -> length (after c) < m ->
    until item k n last c = until item' k m last c.
Proof.
  intros Hl. induction n as [|n IH]; intros m k last c H Hn Hm; [lia|].
  destruct m as [|m]; [lia|]. simpl.
  destruct (match last with Some p => Nat.eqb p (pos c) | None => false end);
    [reflexivity|].
  rewrite (H _ c (reach_refl c)).
  rewrite (Hl (until item k n (Some (pos c)))
              (until item' k m (Some (pos c))) c); [reflexivity|].
  intros c' Hc. destruct (reach_cases Hc) as [->|Hlt].
  - now rewrite !until_stuck.
  - apply IH; [|lia|lia]. intros k0 c'' Hc'. apply H. eapply reach_trans; eauto.
Qed.

(** Fuel beyond the number of characters left changes nothing. *)
Lemma exec_fuel r :
  forall n m k c,
    length (after c) < n -> length (after c) < m -> exec n r k c = exec m r k c.
Proof.
  induction r as [a|p|r1 IH1 r2 IH2|r1 IH1 r2 IH2|r1 IH1|r1 IH1|r1 IH1|lit|r1 IH1];
    intros n m k c Hn Hm; simpl; try reflexivity.
  - rewrite (IH1 n m _ c Hn Hm). apply exec_local. intros c' Hc.
    pose proof (reach_length Hc). apply IH2; lia.
  - now rewrite (IH1 n m k c Hn Hm), (IH2 n m k c Hn Hm).
  - now apply IH1.
  - apply until_fuel; [apply exec_local| |lia|lia].
    intros k0 c' Hc. pose proof (reach_length Hc). apply IH1; lia.
  - rewrite (IH1 n m _ c Hn Hm). apply exec_local. intros c' Hc.
    pose proof (reach_length Hc).
    apply until_fuel; [apply exec_local| |lia|lia].
    intros k0 c'' Hc'. pose proof (reach_length Hc'). apply IH1; lia.
  - now rewrite (IH1 n m _ c Hn Hm).
Qed.

(** A match ends where the continuation accepted, at or after the start. *)
Lemma until_from_k item :
  (forall k c c', item k c = Some c' -> exists c1, reach c c1 /\ k c1 = Some c') ->
  forall n k last c c',
    until item k n last c = Some c' -> exists c1, reach c c1 /\ k c1 = Some c'.
Proof.
  intros Hitem. induction n as [|n IH]; intros k last c c'; simpl.
  - intros H. exists c. split; [apply reach_refl | exact H].
  - destruct (match last with Some p => Nat.eqb p (pos c) | None => false end).
    + intros H. exists c. split; [apply reach_refl | exact H].
    + destruct (item (until item k n (Some (pos c))) c) as [c2|] eqn:E; simpl.
      * intros H. injection H as ->.
        destruct (Hitem _ _ _ E) as [c1 [R1 H1]].
        destruct (IH _ _ _ _ H1) as [c3 [R3 H3]].
        exists c3. split; [eapply reach_trans; eauto | exact H3].
      * intros H. exists c. split; [apply reach_refl | exact H].
Qed.

Lemma exec_from_k r n :
  forall k c c',
    exec n r k c = Some c' -> exists c1, reach c c1 /\ k c1 = Some c'.
Proof.
  induction r as [a|p|r1 IH1 r2 IH2|r1 IH1 r2 IH2|r1 IH1|r1 IH1|r1 IH1|lit|r1 IH1];
    intros k c c'; simpl.
  - destruct (step c) as [[x c1]|] eqn:E; [|discriminate].
    destruct (Ascii.eqb x a); [|discriminate].
    intros H. exists c1. split; [eapply reach_step; eauto | exact H].
  - destruct (step c) as [[x c1]|] eqn:E; [|discriminate].
    destruct (p x); [|discriminate].
    intros H. exists c1. split; [eapply reach_step; eauto | exact H].
  - intros H. destruct (IH1 _ _ _ H) as [c1 [R1 H1]].
    destruct (IH2 _ _ _ H1) as [c2 [R2 H2]].
    exists c2. split; [eapply reach_trans; eauto | exact H2].
  - destruct (exec n r1 k c) as [c2|] eqn:E; simpl.
    + intros H. injection H as ->. now apply IH1.
    + apply IH2.
  - apply IH1.
  - apply (until_from_k (exec n r1) IH1).
  - intros H. destruct (IH1 _ _ _ H) as [c1 [R1 H1]].
    destruct (until_from_k (exec n r1) IH1 _ _ _ _ H1) as [c2 [R2 H2]].
    exists c2. split; [eapply reach_trans; eauto | exact H2].
  - destruct (starts_with (rev lit) (before c)); [|discriminate].
    intros H. exists c. split; [apply reach_refl | exact H].
  - destruct (exec n r1 (fun c0 => Some c0) c); [|discriminate].
    intros H. exists c. split; [apply reach_refl | exact H].
Qed.

Lemma exec_consumes r n :
  consumes r = true ->
  forall k c c',
    exec n r k c = Some c' ->
    exists c1,
      reach c c1 /\ length (after c1) < length (after c) /\ k c1 = Some c'.
Proof.
  induction r as [a|p|r1 IH1 r2 IH2|r1 IH1 r2 IH2|r1 IH1|r1 IH1|r1 IH1|lit|r1 IH1];
    cbn [consumes]; intros Hr k c c'; try discriminate; cbn [exec].
  - destruct (step c) as [[x c1]|] eqn:E; [|discriminate].
    destruct (Ascii.eqb x a); [|discriminate].
    intros H. exists c1. split; [eapply reach_step; eauto|]. split; [|exact H].
    unfold step in E. destruct (after c); [discriminate|].
    injection E as _ <-. simpl. lia.
  - destruct (step c) as [[x c1]|] eqn:E; [|discriminate].
    destruct (p x); [|discriminate].
    intros H. exists c1. split; [eapply reach_step; eauto|]. split; [|exact H].
    unfold step in E. destruct (after c); [discriminate|].
    injection E as _ <-. simpl. lia.
  - intros H. destruct (consumes r1) eqn:E1.
    + destruct (IH1 eq_refl _ _ _ H) as [c1 [R1 [L1 H1]]].
      destruct (exec_from_k _ _ _ _ H1) as [c2 [R2 H2]].
      pose proof (reach_length R2).
      exists c2. split; [eapply reach_trans; eauto|]. split; [lia | exact H2].
    + destruct (exec_from_k _ _ _ _ H) as [c1 [R1 H1]].
      destruct (IH2 Hr _ _ _ H1) as [c2 [R2 [L2 H2]]].
      pose proof (reach_length R1).
      exists c2. split; [eapply reach_trans; eauto|]. split; [lia | exact H2].
  - apply andb_prop in Hr. destruct Hr as [Hr1 Hr2].
    destruct (exec n r1 k c) as [c2|] eqn:E; cbn [orelse].
    + intros H. injection H as ->. now apply IH1.
    + now apply IH2.
  - now apply IH1.
  - intros H. destruct (IH1 Hr _ _ _ H) as [c1 [R1 [L1 H1]]].
    destruct (until_from_k (exec n r1) (exec_from_k r1 n) _ _ _ _ H1)
      as [c2 [R2 H2]].
    pose proof (reach_length R2).
    exists c2. split; [eapply reach_trans; eauto|]. split; [lia | exact H2].
Qed.

Lemma match_here_consumes r pre suf :
  consumes r = true -> match_here r pre suf <> Some 0.
Proof.
  intros Hr. unfold match_here.
  destruct (exec (S (length suf)) r (fun c' => Some c') (Cursor pre suf))
    as [c'|] eqn:E; [|discriminate].
  destruct (exec_consumes r _ Hr _ _ E) as [c1 [_ [L1 H1]]].
  injection H1 as ->. cbn [after] in L1. intros H. injection H as H. lia.
Qed.

Lemma match_here_fuel r pre suf n :
  length suf < n ->
  exec n r (fun c' => Some c') (Cursor pre suf)
  = exec (S (length suf)) r (fun c' => Some c') (Cursor pre suf).
Proof. intros H. apply exec_fuel; simpl; lia. Qed.

End ReFacts.

(** ** The comment stripper *)

Section CleanSource.
Import Re.

Lemma is_space_hash : is_space hash = false.
Proof. reflexivity. Qed.

(** A greedy run over one character class always ends, no later than where
    the subject ends. *)
Lemma until_class m p n last c :
  exists c', until (exec m (Class p)) (fun c0 => Some c0) n last c = Some c'
             /\ length (after c') <= length (after c).
Proof.
  assert (Hitem : forall k c0,
            exec m (Class p) k c0
            = match after c0 with
              | [] => None
              | a :: rest =>
                  if p a then k (Cursor (a :: before c0) rest) else None
              end).
  { intros k c0. cbn [exec]. unfold step. now destruct (after c0). }
  revert Hitem. generalize (exec m (Class p)). intros item Hitem.
  revert last c. induction n as [|n IH]; intros last c; cbn [until orelse].
  - exists c. split; [reflexivity | lia].
  - destruct (match last with Some q => Nat.eqb q (pos c) | None => false end).
    + exists c. split; [reflexivity | lia].
    + rewrite Hitem. destruct (after c) as [|a rest] eqn:E; cbn [orelse].
      * exists c. split; [reflexivity | rewrite E; simpl; lia].
      * destruct (p a); cbn [orelse].
        -- destruct (IH (Some (pos c)) (Cursor (a :: before c) rest))
             as [c' [H1 H2]].
           exists c'. rewrite H1. simpl in *. split; [reflexivity | lia].
        -- exists c. split; [reflexivity | rewrite E; simpl; lia].
Qed.

Lemma exec_expression n k c :
  exec n expression k c
  = orelse (exec n block_comment k c) (fun _ => exec n line_comment k c).
Proof. reflexivity. Qed.

(** The block alternative wants a blank here, the line alternative a [#]. *)
Lemma block_comment_at_hash n k pre suf :
  exec n block_comment k (Cursor pre (hash :: suf)) = None.
Proof.
  unfold block_comment. cbn [exec]. unfold step. cbn [after].
  rewrite is_space_hash. now destruct (starts_with _ _).
Qed.

Lemma line_comment_at_hash n k pre suf :
  exec n line_comment k (Cursor pre (hash :: suf))
  = until (exec n (Class is_dot)) k n None (Cursor (hash :: pre) suf).
Proof. reflexivity. Qed.

Lemma block_comment_plain n k pre suf :
  Forall (fun a => a <> hash) pre ->
  exec n block_comment k (Cursor pre suf) = None.
Proof.
  intros Hpre. unfold block_comment. cbn [exec before].
  assert (E : starts_with (rev [hash; hash; hash]) pre = false).
  { change (rev [hash; hash; hash]) with [hash; hash; hash].
    destruct Hpre as [|a pre' Ha _]; [reflexivity|]. cbn [starts_with].
    destruct (Ascii.eqb_spec hash a) as [<-|_]; [now elim Ha | reflexivity]. }
  now rewrite E.
Qed.

Lemma line_comment_plain n k pre suf :
  Forall (fun a => a <> hash) suf ->
  exec n line_comment k (Cursor pre suf) = None.
Proof.
  intros Hsuf. unfold line_comment. cbn [exec]. unfold step. cbn [after].
  destruct Hsuf as [|a suf' Ha _]; [reflexivity|].
  destruct (Ascii.eqb_spec a hash) as [->|_]; [now elim Ha | reflexivity].
Qed.

(** At a [#] the pattern matches, and the match spans that character. *)
Lemma match_here_hash pre suf :
  exists n, match_here expression pre (hash :: suf) = Some (S n).
Proof.
  unfold match_here.
  rewrite exec_expression, block_comment_at_hash. cbn [orelse].
  rewrite line_comment_at_hash.
  destruct (until_class (S (length (hash :: suf))) is_dot
              (S (length (hash :: suf))) None (Cursor (hash :: pre) suf))
    as [c' [H1 H2]].
  rewrite H1. cbn [after] in H2. exists (length suf - length (after c')).
  f_equal. cbn [length]. lia.
Qed.

(** Where no [#] is in sight the pattern does not match. *)
Lemma match_here_plain pre suf :
  Forall (fun a => a <> hash) pre ->
  Forall (fun a => a <> hash) suf ->
  match_here expression pre suf = None.
Proof.
  intros Hpre Hsuf. unfold match_here.
  rewrite exec_expression, (block_comment_plain _ _ _ Hpre). cbn [orelse].
  now rewrite (line_comment_plain _ _ _ Hsuf).
Qed.

(** A match of the pattern spans at least one character. *)
Lemma expression_consumes pre suf : match_here expression pre suf <> Some 0.
Proof. apply ReFacts.match_here_consumes. reflexivity. Qed.

(** No [#] survives a substitution whose replacement has none. *)
Lemma scan_no_hash repl :
  Forall (fun a => a <> hash) repl ->
  forall suf pre skip,
    Forall (fun a => a <> hash) (scan expression repl pre suf skip).
Proof.
  intros Hrepl. induction suf as [|a suf IH]; intros pre skip; simpl.
  - constructor.
  - destruct skip as [|n]; [|apply IH].
    destruct (match_here expression pre (a :: suf)) as [[|n]|] eqn:E.
    + constructor; [|apply IH]. intros ->.
      destruct (match_here_hash pre suf) as [n Hn]. congruence.
    + apply Forall_app. split; [exact Hrepl | apply IH].
    + constructor; [|apply IH]. intros ->.
      destruct (match_here_hash pre suf) as [n Hn]. congruence.
Qed.

(** A text without [#] is left as it is. *)
Lemma scan_plain repl suf :
  forall pre,
    Forall (fun a => a <> hash) pre ->
    Forall (fun a => a <> hash) suf ->
    scan expression repl pre suf 0 = suf.
Proof.
  induction suf as [|a suf IH]; intros pre Hpre Hsuf; simpl; [reflexivity|].
  rewrite (match_here_plain Hpre Hsuf).
  inversion Hsuf as [|? ? Ha Hrest]; subst.
  f_equal. apply IH; [constructor; assumption | assumption].
Qed.

(** A text without comment markers is returned as it is. *)
Lemma clean_source_plain (text : string) :
  Forall (fun a => a <> hash) (list_ascii_of_string text) ->
  clean_source text = text.
Proof.
  intros H. unfold clean_source, sub.
  rewrite (scan_plain _ (Forall_nil _) H).
  apply string_of_list_ascii_of_string.
Qed.

(** A line comment goes, the text before it stays. *)
Example clean_source_line_comment :
  clean_source "foo # trailing comment" = "foo "%string.
Proof. vm_compute. reflexivity. Qed.

(** C1. On the text [foo ### hidden ### bar] the stripper returns [foo ]
    followed by nothing: the line comment alternative matches at the first
    [#] and takes the rest of the line, so [bar] is lost and the result is
    not [foo  bar]; and a span of two lines between a pair of [###] lines is
    not removed. *)
Theorem clean_source_block_comment :
  clean_source "foo ### hidden ### bar" = "foo "%string
  /\ clean_source "foo ### hidden ### bar" <> "foo  bar"%string
  /\ clean_source ("###" ++ lf ++ "a" ++ lf ++ "b" ++ lf ++ "###")%string
     = (lf ++ "a" ++ lf ++ "b" ++ lf)%string.
Proof.
  split; [|split].
  - vm_compute. reflexivity.
  - vm_compute. discriminate.
  - vm_compute. reflexivity.
Qed.

(** C6. [clean_source] is idempotent: cleaning a cleaned text changes
    nothing. *)
Theorem clean_source_idempotent (text : string) :
  clean_source (clean_source text) = clean_source text.
Proof.
  unfold clean_source, sub.
  rewrite list_ascii_of_string_of_list_ascii. f_equal.
  apply scan_plain; [constructor|].
  apply scan_no_hash. constructor.
Qed.

End CleanSource.

(** ** The life cycle of a story *)

Section StoryFacts.

Variables Ebnf Tree Artifact : Type.
Variable parser_parse : option Ebnf -> string -> bool -> result Tree.
Variable compiler_compile : Tree -> bool -> result Artifact.
Variable echo : exn -> option string -> string -> result unit.
Variable io_read : string -> result string.
Variable abspath : string -> string.

Local Abbreviation State := (state Ebnf Tree Artifact).
Local Abbreviation World := (world Ebnf Tree).
Local Abbreviation parse' := (parse parser_parse echo).
Local Abbreviation compile' := (compile compiler_compile echo).
Local Abbreviation process' := (process parser_parse compiler_compile echo).
Local Abbreviation error' := (@error Ebnf Tree Artifact echo).
Local Abbreviation read' := (@read Ebnf Tree io_read abspath).
Local Abbreviation from_file' := (@from_file Ebnf Tree Artifact io_read abspath).

Ltac run :=
  unfold process, parse, compile, error, from_file, read, attribute,
    set_tree, set_compiled, emit, print, exit, try, bind, get, modify, call,
    raise, ret;
  cbn [fst snd self trace story path tree compiled].

(** What [parse] does, by the outcome of the parser. *)
Lemma parse_run ebnf debug (st : State) :
  parse' ebnf debug st
  = let called :=
        trace st ++ [ParserParse ebnf (story (self st)) debug] in
    match parser_parse ebnf (story (self st)) debug with
    | Return t =>
        (Return tt,
         {| self := {| story := story (self st); path := path (self st);
                       tree := Some t; compiled := compiled (self st) |};
            trace := called |})
    | Raise e =>
        if syntax_failure e then
          error' _ e debug {| self := self st; trace := called |}
        else (Raise e, {| self := self st; trace := called |})
    end.
Proof.
  run. destruct (parser_parse ebnf (story (self st)) debug) as [t|e];
    [reflexivity|].
  unfold syntax_failure.
  destruct (isinstance e UnexpectedToken); [reflexivity|].
  destruct (isinstance e UnexpectedInput); reflexivity.
Qed.

(** [error] never returns: it raises the error itself, or what [echo]
    raises, or ends the process. *)
Lemma error_run (A : Type) e debug (st : State) :
  error' A e debug st
  = if debug then (Raise e, st)
    else
      let told :=
          {| self := self st;
             trace := trace st ++ [Echoed e (path (self st)) (story (self st))] |} in
      match echo e (path (self st)) (story (self st)) with
      | Return _ => (Raise (SystemExit None), told)
      | Raise e' => (Raise e', told)
      end.
Proof.
  run. destruct debug; [reflexivity|].
  destruct (echo e (path (self st)) (story (self st))); reflexivity.
Qed.

(** C2, as the code has it.  [parse] hands the text the story holds to the
    parser as it is, without cleaning it; for a story made by [from_file]
    from a file that exists, that text is the cleaned content of the file,
    so the parser receives the comment-stripped form of the file. *)
Theorem parse_hands_stored_text ebnf debug :
  (forall st : State,
     parsed_texts (trace (snd (parse' ebnf debug st)))
     = parsed_texts (trace st) ++ [story (self st)])
  /\ (forall p contents (w : World),
        io_read p = Return contents ->
        exists s,
          from_file' p w = (Return s, w)
          /\ story s = clean_source contents
          /\ parsed_texts
               (trace (snd (parse' ebnf debug {| self := s; trace := [] |})))
             = [clean_source contents]).
Proof.
  assert (Hparsed : forall (tr : list (event Ebnf Tree)) text d,
             parsed_texts (tr ++ [ParserParse ebnf text d])
             = parsed_texts tr ++ [text]).
  { induction tr as [|ev tr IH]; intros text d; [reflexivity|].
    destruct ev; simpl; now rewrite IH. }
  assert (Htold : forall (tr : list (event Ebnf Tree)) e p text,
             parsed_texts (tr ++ [Echoed e p text]) = parsed_texts tr).
  { induction tr as [|ev tr IH]; intros e p text; [reflexivity|].
    destruct ev; simpl; now rewrite IH. }
  assert (Hall : forall st : State,
             parsed_texts (trace (snd (parse' ebnf debug st)))
             = parsed_texts (trace st) ++ [story (self st)]).
  { intros st. rewrite parse_run. cbv zeta.
    destruct (parser_parse ebnf (story (self st)) debug) as [t|e];
      [apply Hparsed|].
    destruct (syntax_failure e); [|apply Hparsed].
    rewrite error_run. destruct debug; [apply Hparsed|].
    cbn [self trace].
    destruct (echo e (path (self st)) (story (self st)));
      cbn [snd trace]; rewrite Htold; apply Hparsed. }
  split; [exact Hall|].
  intros p contents w Hread.
  exists (init (clean_source contents) (Some p)). split; [|split].
  - run. rewrite Hread. reflexivity.
  - reflexivity.
  - rewrite Hall. reflexivity.
Qed.

(** A story made by [from_stream] holds what the stream gave, as it is. *)
Lemma from_stream_run text (w : World) :
  @from_stream Ebnf Tree Artifact (Return text) w = (Return (init text None), w).
Proof. reflexivity. Qed.

(** What [compile] does, by the tree at hand and the outcome of the
    compiler. *)
Lemma compile_run debug (st : State) :
  compile' debug st
  = match tree (self st) with
    | None => (Raise (Exception AttributeError "tree"), st)
    | Some t =>
        let called := trace st ++ [CompilerCompile t debug] in
        match compiler_compile t debug with
        | Return a =>
            (Return tt,
             {| self := {| story := story (self st); path := path (self st);
                           tree := tree (self st); compiled := Some a |};
                trace := called |})
        | Raise e =>
            if isinstance e CompilerError || isinstance e StorySyntaxError
            then error' _ e debug {| self := self st; trace := called |}
            else (Raise e, {| self := self st; trace := called |})
        end
    end.
Proof.
  run. destruct (tree (self st)) as [t|] eqn:Ht; [|reflexivity].
  cbn [self trace tree].
  destruct (compiler_compile t debug) as [a|e]; [now rewrite Ht|].
  destruct (isinstance e CompilerError || isinstance e StorySyntaxError);
    reflexivity.
Qed.

(** C3. When the parser fails with a syntax failure, [process] fails too,
    in debug mode and without it: the instance is left as it was, so no
    compiled result is stored, and [Compiler.compile] is not among the calls
    made. *)
Theorem process_stops_at_syntax_failure ebnf debug (st : State) e :
  parser_parse ebnf (story (self st)) debug = Raise e ->
  syntax_failure e = true ->
  exists e' evs,
    process' ebnf debug st
    = (Raise e', {| self := self st; trace := trace st ++ evs |})
    /\ existsb (@is_compile_call Ebnf Tree) evs = false.
Proof.
  intros Hparse Hsyntax. unfold process, bind.
  rewrite parse_run, Hparse, Hsyntax, error_run. cbv zeta. cbn [self trace].
  destruct debug.
  - exists e, [ParserParse ebnf (story (self st)) true]. split; reflexivity.
  - destruct (echo e (path (self st)) (story (self st))) as [u|e'].
    + exists (SystemExit None),
        [ParserParse ebnf (story (self st)) false;
         Echoed e (path (self st)) (story (self st))].
      rewrite <- app_assoc. split; reflexivity.
    + exists e',
        [ParserParse ebnf (story (self st)) false;
         Echoed e (path (self st)) (story (self st))].
      rewrite <- app_assoc. split; reflexivity.
Qed.

(** In debug mode a failure of the compiler that [compile] catches is
    raised again as it is. *)
Lemma compile_debug_reraises (st : State) t e :
  tree (self st) = Some t ->
  compiler_compile t true = Raise e ->
  isinstance e CompilerError || isinstance e StorySyntaxError = true ->
  compile' true st
  = (Raise e, {| self := self st;
                 trace := trace st ++ [CompilerCompile t true] |}).
Proof.
  intros Ht Hc Hi. rewrite compile_run, Ht. cbv zeta. rewrite Hc, Hi.
  now rewrite error_run.
Qed.

(** So does [process], when the parser succeeded and the compiler failed. *)
Lemma process_debug_compile_failure ebnf (st : State) t e :
  parser_parse ebnf (story (self st)) true = Return t ->
  compiler_compile t true = Raise e ->
  isinstance e CompilerError || isinstance e StorySyntaxError = true ->
  fst (process' ebnf true st) = Raise e.
Proof.
  intros Hparse Hc Hi. unfold process, bind.
  rewrite parse_run, Hparse. cbv beta iota zeta.
  set (st' := {| self := _; trace := _ |}).
  assert (Ht : tree (self st') = Some t) by reflexivity.
  now rewrite (compile_debug_reraises st' Ht Hc Hi).
Qed.

(** C4. In debug mode a syntax failure of the parser comes out of
    [process] as the very value the parser raised; the call of the parser is
    the only thing that happened, so nothing was rendered, and the value is
    no [SystemExit], so the process goes on. *)
Theorem process_debug_reraises ebnf (st : State) e :
  parser_parse ebnf (story (self st)) true = Raise e ->
  syntax_failure e = true ->
  process' ebnf true st
  = (Raise e, {| self := self st;
                 trace := trace st ++ [ParserParse ebnf (story (self st)) true] |})
  /\ (forall code, e <> SystemExit code).
Proof.
  intros Hparse Hsyntax. split.
  - unfold process, bind. now rewrite parse_run, Hparse, Hsyntax, error_run.
  - intros code ->. discriminate Hsyntax.
Qed.

(** C5, as the code has it.  Without debug mode the fatal paths end with
    [exit()] called without a code: [read] on a missing file, after printing
    where it looked, and [error], once [echo] has returned.  The status of
    such an exit is 0. *)
Theorem fatal_paths_exit_without_code :
  (forall p e (w : World),
     io_read p = Raise e ->
     isinstance e FileNotFoundError = true ->
     read' p w
     = (Raise (SystemExit None), w ++ [Printed (not_found_message abspath p)]))
  /\ (forall (A : Type) e (st : State),
        echo e (path (self st)) (story (self st)) = Return tt ->
        error' A e false st
        = (Raise (SystemExit None),
           {| self := self st;
              trace := trace st ++ [Echoed e (path (self st)) (story (self st))] |}))
  /\ exit_status None = 0%Z.
Proof.
  split; [|split].
  - intros p e w Hread Hclass. run. now rewrite Hread, Hclass.
  - intros A e st Hecho. now rewrite error_run, Hecho.
  - reflexivity.
Qed.

(** C9, as the code has it.  After [parse] the tree of the instance is the
    new tree when the parser returned one, and is what it was before when
    the parser failed: a failed parse leaves the tree of an earlier parse in
    place. *)
Theorem parse_tree_after ebnf debug (st : State) :
  tree (self (snd (parse' ebnf debug st)))
  = match parser_parse ebnf (story (self st)) debug with
    | Return t => Some t
    | Raise _ => tree (self st)
    end.
Proof.
  rewrite parse_run. cbv zeta.
  destruct (parser_parse ebnf (story (self st)) debug) as [t|e];
    [reflexivity|].
  destruct (syntax_failure e); [|reflexivity].
  rewrite error_run. destruct debug; [reflexivity|]. cbn [self trace].
  destruct (echo e (path (self st)) (story (self st))); reflexivity.
Qed.

End StoryFacts.

(** ** The modules of a story *)

Lemma list_ascii_of_string_app (s1 s2 : string) :
  list_ascii_of_string (s1 ++ s2)%string
  = list_ascii_of_string s1 ++ list_ascii_of_string s2.
Proof. induction s1 as [|a s1 IH]; simpl; [reflexivity | now rewrite IH]. Qed.

Lemma string_of_list_ascii_app (l1 l2 : list ascii) :
  string_of_list_ascii (l1 ++ l2)
  = (string_of_list_ascii l1 ++ string_of_list_ascii l2)%string.
Proof. induction l1 as [|a l1 IH]; simpl; [reflexivity | now rewrite IH]. Qed.

Lemma starts_with_app (p l : list ascii) : Re.starts_with p (p ++ l) = true.
Proof.
  induction p as [|a p IH]; simpl; [reflexivity|].
  now rewrite Ascii.eqb_refl, IH.
Qed.

(** [l[1:-1]] drops the first and the last element. *)
Lemma getslice_ends (A : Type) (x y : A) (body : list A) :
  getslice (x :: body ++ [y]) 1 (-1) = body.
Proof.
  unfold getslice, adjust.
  replace (Z.of_nat (length (x :: body ++ [y])))
    with (Z.of_nat (length body) + 2)%Z
    by (simpl length; rewrite length_app; simpl length; lia).
  replace (1 <? 0) %Z with false by reflexivity.
  replace (-1 <? 0)%Z with true by reflexivity.
  replace (Z.to_nat (Z.min 1 (Z.of_nat (length body) + 2))) with 1 by lia.
  replace (Z.to_nat (Z.max 0 (-1 + (Z.of_nat (length body) + 2))
                     - Z.min 1 (Z.of_nat (length body) + 2)))
    with (length body + 0) by lia.
  simpl skipn. rewrite firstn_app_2. simpl. apply app_nil_r.
Qed.

Lemma strip_ends_quoted (q1 q2 : ascii) (body : string) :
  strip_ends (String q1 (body ++ String q2 EmptyString)) = body.
Proof.
  unfold strip_ends. simpl list_ascii_of_string.
  rewrite list_ascii_of_string_app. simpl list_ascii_of_string.
  rewrite getslice_ends. apply string_of_list_ascii_of_string.
Qed.

Lemma endswith_app (text suffix : string) :
  endswith (text ++ suffix) suffix = true.
Proof.
  unfold endswith. rewrite list_ascii_of_string_app, rev_app_distr.
  apply starts_with_app.
Qed.

(** A resolved path always carries the suffix. *)
Lemma module_path_suffix (literal : string) :
  endswith (module_path literal) story_suffix = true.
Proof.
  unfold module_path.
  destruct (endswith (strip_ends literal) story_suffix) eqn:E; simpl.
  - exact E.
  - apply endswith_app.
Qed.

Section ModulesFacts.

Variables Ebnf Tree Artifact : Type.
Variable find_data : Tree -> string -> list Tree.
Variable node_string : Tree -> result Tree.
Variable node_child : Tree -> Z -> result Tree.
Variable node_value : Tree -> result string.

Local Abbreviation State := (state Ebnf Tree Artifact).
Local Abbreviation literal := (literal_of node_string node_child node_value).
Local Abbreviation loop :=
  (@modules_loop Ebnf Tree Artifact node_string node_child node_value).
Local Abbreviation modules' :=
  (@modules Ebnf Tree Artifact find_data node_string node_child node_value).

(** One turn of the loop appends the path of the node, or fails as the
    access to its literal fails. *)
Lemma modules_step_run acc module (st : State) :
  modules_step node_string node_child node_value acc module st
  = match literal module with
    | Return v => (Return (acc ++ [module_path v]), st)
    | Raise e => (Raise e, st)
    end.
Proof.
  unfold modules_step, literal_of, bind, call, ret.
  destruct (node_string module) as [s|e]; [|reflexivity].
  destruct (node_child s 0) as [c|e]; [|reflexivity].
  destruct (node_value c); reflexivity.
Qed.

Lemma modules_loop_all nodes :
  forall acc lits (st : State),
    Forall2 (fun n v => literal n = Return v) nodes lits ->
    loop acc nodes st = (Return (acc ++ map module_path lits), st).
Proof.
  induction nodes as [|n nodes IH]; intros acc lits st H;
    inversion H as [|? v ? lits' Hn Hrest]; subst; cbn [modules_loop map].
  - now rewrite app_nil_r.
  - unfold bind. rewrite modules_step_run, Hn, (IH _ _ _ Hrest).
    now rewrite <- app_assoc.
Qed.

Lemma modules_loop_fails good :
  forall acc lits bad rest e (st : State),
    Forall2 (fun n v => literal n = Return v) good lits ->
    literal bad = Raise e ->
    loop acc (good ++ bad :: rest) st = (Raise e, st).
Proof.
  induction good as [|n good IH]; intros acc lits bad rest e st H Hbad;
    inversion H as [|? v ? lits' Hn Hrest]; subst;
    cbn [modules_loop app]; unfold bind; rewrite modules_step_run.
  - now rewrite Hbad.
  - rewrite Hn. eapply IH; eauto.
Qed.

(** C7. [modules] gives one path per import node, in the order in which
    the tree yields the nodes and without dropping repeated ones: the path of
    a node is its literal without its first and last character, followed by
    [.story] exactly when it does not end with it already. *)
Theorem modules_resolves (st : State) t lits :
  tree (self st) = Some t ->
  Forall2 (fun n v => literal n = Return v) (find_data t "imports") lits ->
  modules' st = (Return (map module_path lits), st)
  /\ (forall q1 q2 body,
        module_path (String q1 (body ++ String q2 EmptyString))
        = if endswith body ".story" then body else (body ++ ".story")%string)
  /\ module_path (String quote ("a/b" ++ String quote EmptyString)) = "a/b.story"%string
  /\ module_path (String quote ("a/b.story" ++ String quote EmptyString))
     = "a/b.story"%string.
Proof.
  intros Ht Hlits. split; [|split; [|split]].
  - unfold modules, attribute, bind, get, ret. rewrite Ht.
    now rewrite (modules_loop_all [] st Hlits).
  - intros q1 q2 body. unfold module_path. rewrite strip_ends_quoted.
    unfold story_suffix. now destruct (endswith body ".story").
  - reflexivity.
  - reflexivity.
Qed.

(** C8, as the code has it.  [modules] checks no shape itself: at the first
    import node whose literal cannot be reached it fails with the very error
    that the access raised, and gives no list. *)
Theorem modules_propagates (st : State) t good lits bad rest e :
  tree (self st) = Some t ->
  find_data t "imports" = good ++ bad :: rest ->
  Forall2 (fun n v => literal n = Return v) good lits ->
  literal bad = Raise e ->
  modules' st = (Raise e, st).
Proof.
  intros Ht Hnodes Hgood Hbad.
  unfold modules, attribute, bind, get, ret. rewrite Ht, Hnodes.
  eapply modules_loop_fails; eauto.
Qed.

End ModulesFacts.

(** ** Lines *)




(** A slice is a run of consecutive elements of the list. *)
Lemma getslice_segment (A : Type) (l : list A) (start stop : Z) :
  exists pre post, l = pre ++ getslice l start stop ++ post.
Proof.
  unfold getslice.
  set (a := Z.to_nat (adjust (Z.of_nat (length l)) start)).
  set (n := Z.to_nat (_ - _)).
  exists (firstn a l), (skipn n (skipn a l)).
  now rewrite (firstn_skipn n (skipn a l)), (firstn_skipn a l).
Qed.

Section LineFacts.

Variables Ebnf Tree Artifact : Type.

Local Abbreviation State := (state Ebnf Tree Artifact).


End LineFacts.

(** * The class at work on the sample instance *)

Section Instances.
Import Sample.

(** A directly made story with a comment in it: the parser is handed the
    comment too, not the cleaned text. *)
Lemma parse_hands_comments :
  parsed_texts (trace (snd (parse None false (start raw))))
  <> [clean_source raw].
Proof. vm_compute. discriminate. Qed.

Lemma parse_hands_stored_text_sample :
  io_read "hello.story" = Return ("import 'a' # first" ++ lf ++ "import 'b'")%string
  /\ exists s,
       from_file "hello.story" [] = (Return s, [])
       /\ story s = clean_source ("import 'a' # first" ++ lf ++ "import 'b'")
       /\ parsed_texts
            (trace (snd (parse None false {| self := s; trace := [] |})))
          = [clean_source ("import 'a' # first" ++ lf ++ "import 'b'")].
Proof.
  split; [reflexivity|].
  exact (proj2 (parse_hands_stored_text nat parser_parse echo io_read abspath
                  None false)
               "hello.story"%string _ [] eq_refl).
Defined.

Lemma process_stops_at_syntax_failure_sample :
  parser_parse (Some "g"%string) raw false = Raise failure
  /\ syntax_failure failure = true
  /\ exists e' evs,
       process (Some "g"%string) false (start raw)
       = (Raise e', {| self := self (start raw);
                       trace := trace (start raw) ++ evs |})
       /\ existsb (@is_compile_call string node) evs = false.
Proof.
  split; [reflexivity|]. split; [reflexivity|].
  apply (process_stops_at_syntax_failure parser_parse compiler_compile echo
           (Some "g"%string) false (start raw) (e := failure));
    reflexivity.
Defined.

Lemma process_debug_reraises_sample :
  parser_parse (Some "g"%string) raw true = Raise failure
  /\ syntax_failure failure = true
  /\ process (Some "g"%string) true (start raw)
     = (Raise failure,
        {| self := self (start raw);
           trace := trace (start raw)
                    ++ [ParserParse (Some "g"%string) raw true] |}).
Proof.
  split; [reflexivity|]. split; [reflexivity|].
  apply (process_debug_reraises parser_parse compiler_compile echo
           (Some "g"%string) (start raw) (e := failure));
    reflexivity.
Defined.

(** The claim that a missing file ends the process with a status other than
    0 fails: the exit carries no code. *)
Lemma missing_file_exits_with_zero :
  ~ (exists code w,
       read "missing.story" [] = (Raise (SystemExit code), w)
       /\ exit_status code <> 0%Z).
Proof.
  intros [code [w [H Hcode]]]. vm_compute in H.
  injection H as <- _. now apply Hcode.
Qed.

Lemma fatal_paths_exit_without_code_sample :
  (io_read "missing.story"
   = Raise (Exception FileNotFoundError "missing.story")
   /\ read "missing.story" []
      = (Raise (SystemExit None),
         [Printed (not_found_message abspath "missing.story")]))
  /\ (echo failure None raw = Return tt
      /\ @error string node nat echo unit failure false (start raw)
         = (Raise (SystemExit None),
            {| self := self (start raw);
               trace := [Echoed failure None raw] |})).
Proof.
  destruct (fatal_paths_exit_without_code string node nat echo io_read abspath)
    as [Hread [Herror _]].
  split; (split; [reflexivity|]).
  - apply (Hread "missing.story"%string
             (Exception FileNotFoundError "missing.story") []); reflexivity.
  - apply (Herror unit failure (start raw)). reflexivity.
Defined.

Lemma modules_resolves_sample :
  tree (self (parsed three)) = Some three
  /\ modules (parsed three)
     = (Return ["a.story"; "b.story"; "a.story"]%string, parsed three).
Proof.
  split; [reflexivity|].
  apply (modules_resolves find_data node_string node_child node_value
           (parsed three) (t := three)
           (lits := [single_quoted "a"; single_quoted "b.story";
                     single_quoted "a"])).
  - reflexivity.
  - repeat constructor.
Defined.

(** An import node without a string node below it: what comes out is the
    attribute error of the access, not an error of the resolver's own. *)
Lemma malformed_import_attribute_error :
  ~ (exists args s,
       modules (parsed broken)
       = (Raise (Exception (OtherError "MalformedImport") args), s)).
Proof. intros [args [s H]]. vm_compute in H. discriminate H. Qed.

Lemma modules_propagates_sample :
  find_data broken "imports"
  = [import_node (single_quoted "a")]
    ++ Node "imports" [] :: [import_node (single_quoted "b")]
  /\ literal_of node_string node_child node_value (Node "imports" [])
     = Raise (Exception AttributeError "child")
  /\ modules (parsed broken)
     = (Raise (Exception AttributeError "child"), parsed broken).
Proof.
  split; [reflexivity|]. split; [reflexivity|].
  apply (modules_propagates find_data node_string node_child node_value
           (parsed broken) (t := broken)
           (good := [import_node (single_quoted "a")])
           (lits := [single_quoted "a"])
           (Node "imports" []) [import_node (single_quoted "b")]
           (e := Exception AttributeError "child")).
  - reflexivity.
  - reflexivity.
  - repeat constructor.
  - reflexivity.
Defined.

(** A parse that succeeds, then one with another grammar that fails: the
    tree of the first parse is still on the story. *)
Lemma stale_tree_remains :
  let st1 := snd (parse None true (start "import 'a'")) in
  let st2 := snd (parse (Some "g"%string) true st1) in
  fst (parse (Some "g"%string) true st1) = Raise failure
  /\ tree (self st1) = Some (Node "start" [import_node "import 'a'"])
  /\ tree (self st2) = tree (self st1).
Proof. vm_compute. repeat split. Qed.



(** The examples of the accessors: the first line, and lines 1 and 2. *)
Example line_first :
  fst (line 0 (start abc)) = Return "a"%string
  /\ fst (slice 1 3 (start abc)) = Return ["b"; "c"]%string.
Proof. split; reflexivity. Qed.

End Instances.

(** * More on the comment stripper *)

Section ClosedForm.
Import Re Closed.

Lemma exec_class n p k c :
  exec n (Class p) k c
  = match after c with
    | [] => None
    | a :: rest => if p a then k (Cursor (a :: before c) rest) else None
    end.
Proof. cbn [exec]. unfold step. now destruct (after c). Qed.

Lemma exec_body_item n V c :
  exec n body_item V c
  = orelse (until (exec n (Class is_dot)) V n None c)
           (fun _ => exec n (Cat (Lit backslash) (Lit "n"%char)) V c).
Proof. reflexivity. Qed.

Lemma exec_escape n V pre l :
  exec n (Cat (Lit backslash) (Lit "n"%char)) V (Cursor pre l)
  = match l with
    | a :: b :: l2 =>
        if Ascii.eqb a backslash && Ascii.eqb b "n"%char
        then V (Cursor (b :: a :: pre) l2)
        else None
    | _ => None
    end.
Proof.
  cbn [exec]. unfold step. cbn [after before].
  destruct l as [|a [|b l2]]; try reflexivity.
  - now destruct (Ascii.eqb a backslash).
  - cbn [after before]. destruct (Ascii.eqb a backslash); [|reflexivity].
    now destruct (Ascii.eqb b "n"%char).
Qed.

Lemma ahead_marker n k c :
  exec n (Ahead marker) k c = if look (after c) then k c else None.
Proof.
  unfold marker. cbn [exec]. unfold step. destruct c as [pre l].
  cbn [after before].
  destruct l as [|s [|h1 [|h2 [|h3 l]]]]; cbn [look after before];
    try reflexivity; destruct (is_space s); cbn [andb]; try reflexivity;
    destruct (Ascii.eqb h1 hash); cbn [andb]; try reflexivity;
    destruct (Ascii.eqb h2 hash); cbn [andb]; try reflexivity;
    destruct (Ascii.eqb h3 hash); reflexivity.
Qed.

Lemma far_cons pre a l :
  far pre (a :: l)
  = if is_dot a
    then orelse (far (a :: pre) l)
                (fun _ => if look (a :: l) then Some (Cursor pre (a :: l)) else None)
    else if look (a :: l) then Some (Cursor pre (a :: l)) else None.
Proof. reflexivity. Qed.

(** A greedy run over the line tries the continuation at each place, the
    farthest first. *)
Lemma run_dot n V l :
  forall pre m last,
    length l < m ->
    match last with Some p => Nat.eqb p (length pre) | None => false end = false ->
    until (exec n (Class is_dot)) V m last (Cursor pre l) = run V pre l.
Proof.
  induction l as [|a l IH]; intros pre m last Hm Hlast;
    (destruct m as [|m]; [simpl in Hm; lia|]);
    cbn [until]; unfold pos; cbn [before]; rewrite Hlast, exec_class;
    cbn [after before run].
  - reflexivity.
  - destruct (is_dot a); [|reflexivity].
    rewrite IH; [reflexivity | simpl in Hm; lia |].
    cbn [length]. apply Nat.eqb_neq. lia.
Qed.

Lemma run_far V l :
  forall pre,
    (forall pre1 l1,
       length l1 <= length l -> length pre <= length pre1 ->
       V (Cursor pre1 l1) = far pre1 l1) ->
    run V pre l = far pre l.
Proof.
  induction l as [|a l IH]; intros pre H.
  - cbn [run]. now apply H.
  - cbn [run]. rewrite (H pre (a :: l)) by lia. rewrite far_cons.
    destruct (is_dot a); [|reflexivity].
    rewrite IH.
    + now destruct (far (a :: pre) l).
    + intros pre1 l1 H1 H2. apply H; cbn [length] in *; lia.
Qed.

Lemma far_none_look pre l : far pre l = None -> look l = false.
Proof.
  destruct l as [|a l]; [reflexivity|]. rewrite far_cons.
  destruct (is_dot a).
  - destruct (far (a :: pre) l); [discriminate|]. cbn [orelse].
    now destruct (look (a :: l)).
  - now destruct (look (a :: l)).
Qed.

Lemma far_none_tail pre a l :
  far pre (a :: l) = None -> is_dot a = true -> far (a :: pre) l = None.
Proof.
  rewrite far_cons. intros H Ha. rewrite Ha in H.
  now destruct (far (a :: pre) l).
Qed.

Lemma is_dot_backslash : is_dot backslash = true.
Proof. reflexivity. Qed.

Lemma is_dot_n : is_dot "n"%char = true.
Proof. reflexivity. Qed.

(** The escape alternative adds nothing to what the greedy run found. *)
Lemma escape_none n V pre l :
  far pre l = None ->
  (forall pre1 l1,
     length l1 < length l -> length pre < length pre1 ->
     V (Cursor pre1 l1) = far pre1 l1) ->
  exec n (Cat (Lit backslash) (Lit "n"%char)) V (Cursor pre l) = None.
Proof.
  intros Hfar HV. rewrite exec_escape.
  destruct l as [|a [|b l2]]; try reflexivity.
  destruct (Ascii.eqb_spec a backslash) as [->|]; [|reflexivity].
  destruct (Ascii.eqb_spec b "n"%char) as [->|]; [|reflexivity].
  cbn [andb]. rewrite HV by (cbn [length]; lia).
  apply far_none_tail; [|apply is_dot_n].
  apply far_none_tail; [exact Hfar | apply is_dot_backslash].
Qed.

Lemma until_stuck_at item k n pre l :
  until item k n (Some (length pre)) (Cursor pre l) = k (Cursor pre l).
Proof. exact (ReFacts.until_stuck item k n (Cursor pre l)). Qed.

(** The repeat of the block alternative, once under way. *)
Lemma until_body n len :
  forall l, length l <= len ->
  forall pre fuel last,
    length l < fuel -> length l < n ->
    match last with Some p => Nat.eqb p (length pre) | None => false end = false ->
    until (exec n body_item) accept fuel last (Cursor pre l) = far pre l.
Proof.
  induction len as [|len IH]; intros l Hlen pre fuel last Hfuel Hn Hlast;
    (destruct fuel as [|fuel]; [lia|]);
    cbn [until]; unfold pos; cbn [before]; rewrite Hlast, exec_body_item.
  - destruct l; [|simpl in Hlen; lia].
    rewrite run_dot by (simpl; lia || reflexivity). cbn [run orelse].
    rewrite until_stuck_at. reflexivity.
  - set (U := until (exec n body_item) accept fuel (Some (length pre))).
    assert (HU : forall pre1 l1,
               length l1 < length l -> length pre < length pre1 ->
               U (Cursor pre1 l1) = far pre1 l1).
    { intros pre1 l1 H1 H2. apply IH; try lia. apply Nat.eqb_neq. lia. }
    assert (Hstuck : U (Cursor pre l) = accept (Cursor pre l)).
    { apply until_stuck_at. }
    assert (Hrun : run U pre l = far pre l).
    { destruct l as [|a l'].
      - cbn [run]. now rewrite Hstuck.
      - cbn [run]. rewrite Hstuck, far_cons. unfold accept. cbn [after].
        destruct (is_dot a); [|reflexivity].
        rewrite run_far; [reflexivity|].
        intros pre1 l1 H1 H2. apply HU; cbn [length] in *; lia. }
    rewrite run_dot by (lia || reflexivity). rewrite Hrun.
    destruct (far pre l) as [c'|] eqn:Hfar; cbn [orelse]; [reflexivity|].
    rewrite (escape_none n U pre l Hfar HU). cbn [orelse].
    unfold accept. cbn [after]. now rewrite (far_none_look _ _ Hfar).
Qed.

(** The whole repeat. *)
Lemma plus_body n pre l :
  length l < n -> exec n (Plus body_item) accept (Cursor pre l) = far pre l.
Proof.
  intros Hn. cbn [exec]. fold body_item. rewrite exec_body_item.
  set (U := until (exec n body_item) accept n None).
  assert (HU : forall pre1 l1,
             length l1 <= length l -> U (Cursor pre1 l1) = far pre1 l1).
  { intros pre1 l1 H1. apply (@until_body n (length l1)); lia || reflexivity. }
  rewrite run_dot by (lia || reflexivity).
  rewrite run_far by (intros; apply HU; lia).
  destruct (far pre l) as [c'|] eqn:Hfar; cbn [orelse]; [reflexivity|].
  apply escape_none; [exact Hfar|]. intros. apply HU. lia.
Qed.

Lemma block_comment_shape :
  block_comment
  = Cat (Behind [hash; hash; hash])
      (Cat (Class is_space) (Cat (Plus body_item) (Ahead marker))).
Proof. reflexivity. Qed.

(** The block alternative in closed form. *)
Lemma block_comment_closed n pre suf :
  length suf <= n ->
  exec n block_comment (fun c => Some c) (Cursor pre suf)
  = if starts_with [hash; hash; hash] pre
    then match suf with
         | a :: l => if is_space a then far (a :: pre) l else None
         | [] => None
         end
    else None.
Proof.
  intros Hn. rewrite block_comment_shape.
  change (exec n (Cat (Behind [hash; hash; hash])
                   (Cat (Class is_space) (Cat (Plus body_item) (Ahead marker))))
            (fun c => Some c) (Cursor pre suf))
    with (if starts_with [hash; hash; hash] pre
          then exec n (Class is_space)
                 (exec n (Plus body_item) (exec n (Ahead marker) (fun c => Some c)))
                 (Cursor pre suf)
          else None).
  destruct (starts_with [hash; hash; hash] pre); [|reflexivity].
  rewrite exec_class. cbn [after before].
  destruct suf as [|a l]; [reflexivity|].
  destruct (is_space a); [|reflexivity].
  rewrite <- (plus_body (n := n) (a :: pre) l) by (simpl in Hn; lia).
  apply ReFacts.exec_local. intros c' _. apply ahead_marker.
Qed.

Lemma run_some l :
  forall pre,
    exists c', run (fun c => Some c) pre l = Some c'
               /\ length (after c') + dot_run l = length l.
Proof.
  induction l as [|a l IH]; intros pre; cbn [run dot_run].
  - exists (Cursor pre []). split; reflexivity.
  - destruct (is_dot a).
    + destruct (IH (a :: pre)) as [c' [H1 H2]]. exists c'. rewrite H1.
      split; [reflexivity | cbn [length]; lia].
    + exists (Cursor pre (a :: l)). split; [reflexivity | cbn [after]; lia].
Qed.

Lemma far_mark l :
  forall pre,
    match far pre l with
    | Some c' =>
        length (after c') <= length l
        /\ last_mark l = Some (length l - length (after c'))
    | None => last_mark l = None
    end.
Proof.
  induction l as [|a l IH]; intros pre; [reflexivity|].
  rewrite far_cons. cbn [last_mark].
  assert (Hhere : match (if look (a :: l) then Some (Cursor pre (a :: l)) else None) with
                  | Some c' =>
                      length (after c') <= length (a :: l)
                      /\ (if look (a :: l) then Some 0 else None)
                         = Some (length (a :: l) - length (after c'))
                  | None => (if look (a :: l) then Some 0 else None) = None
                  end).
  { destruct (look (a :: l)); [|reflexivity]. cbn [after]. split; [lia|].
    f_equal. lia. }
  destruct (is_dot a); [|exact Hhere].
  specialize (IH (a :: pre)).
  destruct (far (a :: pre) l) as [c'|]; cbn [orelse].
  - destruct IH as [H1 H2]. rewrite H2. split; [cbn [length]; lia|].
    f_equal. cbn [length]. lia.
  - rewrite IH. exact Hhere.
Qed.

(** X4. The pattern of [clean_source] matches at a position exactly as the
    closed form says: at a [#], up to the end of the line; at a blank that
    follows [###], up to the last place of that line, or of the next one
    when the blank is the line break, at which a blank and [###] follow; and
    nowhere else. *)
Theorem match_here_closed (pre suf : list ascii) :
  match_here expression pre suf = match_closed pre suf.
Proof.
  unfold match_here, match_closed.
  rewrite exec_expression, block_comment_closed by lia.
  destruct suf as [|a l].
  - rewrite line_comment_plain by constructor.
    now destruct (starts_with [hash; hash; hash] pre).
  - destruct (Ascii.eqb_spec a hash) as [->|Ha].
    + rewrite is_space_hash.
      replace (if starts_with [hash; hash; hash] pre then None else None)
        with (@None cursor) by (now destruct (starts_with _ _)).
      cbn [orelse]. rewrite line_comment_at_hash.
      rewrite run_dot by (cbn [length]; lia || reflexivity).
      destruct (run_some l (hash :: pre)) as [c' [H1 H2]]. rewrite H1.
      f_equal. cbn [length]. lia.
    + assert (Hline : exec (S (length (a :: l))) line_comment
                        (fun c => Some c) (Cursor pre (a :: l)) = None).
      { unfold line_comment. cbn [exec]. unfold step. cbn [after].
        destruct (Ascii.eqb_spec a hash); [contradiction | reflexivity]. }
      rewrite Hline.
      destruct (starts_with [hash; hash; hash] pre); [|reflexivity].
      destruct (is_space a); [|reflexivity]. cbn [andb orelse].
      pose proof (far_mark l (a :: pre)) as Hfar.
      destruct (far (a :: pre) l) as [c'|]; cbn [orelse].
      * destruct Hfar as [H1 H2]. rewrite H2. cbn [option_map length].
        f_equal. lia.
      * now rewrite Hfar.
Qed.

End ClosedForm.

Section StripperFacts.
Import Re Closed.

(** X1. The result of [clean_source] holds no [#], whatever the text. *)
Theorem clean_source_no_hash (text : string) :
  Forall (fun a => a <> hash) (list_ascii_of_string (clean_source text)).
Proof.
  unfold clean_source, sub. rewrite list_ascii_of_string_of_list_ascii.
  apply scan_no_hash. constructor.
Qed.

Lemma scan_subseq r :
  forall suf pre skip, subseq (scan r [] pre suf skip) suf.
Proof.
  induction suf as [|a suf IH]; intros pre skip; cbn [scan].
  - constructor.
  - destruct skip as [|n]; [|apply subseq_drop, IH].
    destruct (match_here r pre (a :: suf)) as [[|n]|].
    + apply subseq_keep, IH.
    + cbn [app]. apply subseq_drop, IH.
    + apply subseq_keep, IH.
Qed.

Lemma subseq_length (A : Type) (l m : list A) :
  subseq l m -> length l <= length m.
Proof. induction 1; simpl; lia. Qed.

Lemma length_list_ascii_of_string (s : string) :
  length (list_ascii_of_string s) = String.length s.
Proof. induction s as [|a s IH]; simpl; [reflexivity | now rewrite IH]. Qed.

(** X3. [clean_source] only deletes: the characters of the result are
    characters of the text in their order, and so the result is no longer
    than the text. *)
Theorem clean_source_deletes_only (text : string) :
  subseq (list_ascii_of_string (clean_source text)) (list_ascii_of_string text)
  /\ String.length (clean_source text) <= String.length text.
Proof.
  assert (H : subseq (list_ascii_of_string (clean_source text))
                     (list_ascii_of_string text)).
  { unfold clean_source, sub. rewrite list_ascii_of_string_of_list_ascii.
    apply scan_subseq. }
  split; [exact H|].
  apply subseq_length in H. now rewrite !length_list_ascii_of_string in H.
Qed.

Lemma starts_with_hashes pre :
  hashes pre <= 2 -> starts_with [hash; hash; hash] pre = false.
Proof.
  destruct pre as [|a [|b [|c pre]]]; cbn [hashes starts_with]; try reflexivity;
    intros H.
  - now destruct (Ascii.eqb hash a).
  - destruct (Ascii.eqb hash a); [|reflexivity].
    now destruct (Ascii.eqb hash b).
  - rewrite (Ascii.eqb_sym hash a), (Ascii.eqb_sym hash b),
      (Ascii.eqb_sym hash c).
    destruct (Ascii.eqb a hash); [|reflexivity].
    destruct (Ascii.eqb b hash); [|reflexivity].
    destruct (Ascii.eqb c hash); [lia | reflexivity].
Qed.

Lemma triple_free_step pre a suf :
  hashes pre <= 2 ->
  triple_free (hashes pre) (a :: suf) = true ->
  hashes (a :: pre) <= 2 /\ triple_free (hashes (a :: pre)) suf = true.
Proof.
  cbn [hashes triple_free]. intros Hk H.
  destruct (Ascii.eqb a hash); [|split; [lia | exact H]].
  destruct (hashes pre) as [|[|k]]; [split; [lia | exact H] ..|discriminate].
Qed.

Lemma is_dot_newline a : is_dot a = false -> a = newline.
Proof.
  unfold is_dot. destruct (Ascii.eqb_spec a newline); [easy | discriminate].
Qed.

Lemma scan_line_comments suf :
  forall pre,
    hashes pre <= 2 ->
    triple_free (hashes pre) suf = true ->
    scan expression [] pre suf 0 = strip_line_comments false suf
    /\ scan expression [] pre suf (dot_run suf) = strip_line_comments true suf.
Proof.
  induction suf as [|a suf IH]; intros pre Hk Hfree; [split; reflexivity|].
  destruct (triple_free_step pre a suf Hk Hfree) as [Hk' Hfree'].
  destruct (IH (a :: pre) Hk' Hfree') as [IH0 IH1].
  assert (H0 : scan expression [] pre (a :: suf) 0
               = strip_line_comments false (a :: suf)).
  { cbn [scan strip_line_comments]. rewrite match_here_closed.
    unfold match_closed. destruct (Ascii.eqb a hash).
    - exact IH1.
    - rewrite (starts_with_hashes pre Hk). cbn [andb]. now rewrite IH0. }
  split; [exact H0|].
  cbn [dot_run]. destruct (is_dot a) eqn:Ha.
  - cbn [scan strip_line_comments].
    unfold is_dot in Ha. apply negb_true_iff in Ha. now rewrite Ha.
  - rewrite H0. apply is_dot_newline in Ha. subst a. reflexivity.
Qed.

(** X5. On a text without three [#] in a row, [clean_source] strips line
    comments and nothing else: each [#] removes the rest of its line, the
    line break stays. *)
Theorem clean_source_line_comments (text : string) :
  triple_free 0 (list_ascii_of_string text) = true ->
  clean_source text
  = string_of_list_ascii
      (strip_line_comments false (list_ascii_of_string text)).
Proof.
  intros H. unfold clean_source, sub. f_equal.
  apply (scan_line_comments (list_ascii_of_string text) []); [simpl; lia | exact H].
Qed.

Lemma strip_line_comments_newlines l :
  forall b,
    count_occ ascii_dec (strip_line_comments b l) newline
    = count_occ ascii_dec l newline.
Proof.
  induction l as [|a l IH]; intros b; [reflexivity|].
  cbn [strip_line_comments]. destruct b.
  - destruct (Ascii.eqb_spec a newline) as [->|Ha].
    + rewrite !count_occ_cons_eq by reflexivity. now rewrite IH.
    + rewrite count_occ_cons_neq by exact Ha. apply IH.
  - destruct (Ascii.eqb_spec a hash) as [->|Ha].
    + rewrite count_occ_cons_neq by discriminate. apply IH.
    + destruct (ascii_dec a newline) as [->|Hn].
      * rewrite !count_occ_cons_eq by reflexivity. now rewrite IH.
      * rewrite !count_occ_cons_neq by exact Hn. apply IH.
Qed.

(** X6. On a text without three [#] in a row, [clean_source] keeps every
    line break: the text and the result have the same number of them. *)
Theorem clean_source_keeps_line_breaks (text : string) :
  triple_free 0 (list_ascii_of_string text) = true ->
  count_occ ascii_dec (list_ascii_of_string (clean_source text)) newline
  = count_occ ascii_dec (list_ascii_of_string text) newline.
Proof.
  intros H. unfold clean_source, sub.
  rewrite list_ascii_of_string_of_list_ascii.
  destruct (scan_line_comments (list_ascii_of_string text) []) as [H0 _];
    [simpl; lia | exact H |].
  simpl list_ascii_of_string. rewrite H0.
  apply strip_line_comments_newlines.
Qed.

End StripperFacts.

Section BlockFacts.
Import Re Closed.

Lemma firstn_dot_run l : Forall (fun a => is_dot a = true) (firstn (dot_run l) l).
Proof.
  induction l as [|a l IH]; cbn [dot_run]; [constructor|].
  destruct (is_dot a) eqn:Ha; cbn [firstn]; constructor; assumption.
Qed.

Lemma last_mark_dots l :
  forall j, last_mark l = Some j -> Forall (fun a => is_dot a = true) (firstn j l).
Proof.
  induction l as [|a l IH]; intros j; cbn [last_mark]; [discriminate|].
  assert (Hhere : (if look (a :: l) then Some 0 else None) = Some j ->
                  Forall (fun a0 => is_dot a0 = true) (firstn j (a :: l))).
  { destruct (look (a :: l)); [|discriminate]. intros H. injection H as <-.
    constructor. }
  destruct (is_dot a) eqn:Ha; [|exact Hhere].
  destruct (last_mark l) as [i|]; [|exact Hhere].
  intros H. injection H as <-. cbn [firstn]. constructor; [exact Ha | now apply IH].
Qed.

(** X7. A match of the pattern never runs over a line break: past its first
    character it stays on one line, and its first character is a line break
    only right after [###].  So no match takes a second line with it. *)
Theorem match_stays_on_line (pre suf : list ascii) (n : nat) :
  match_here expression pre suf = Some n ->
  exists a l,
    suf = a :: l
    /\ Forall (fun b => b <> newline) (firstn (n - 1) l)
    /\ (a = newline -> starts_with [hash; hash; hash] pre = true).
Proof.
  rewrite match_here_closed. unfold match_closed.
  destruct suf as [|a l]; [discriminate|]. intros H. exists a, l.
  split; [reflexivity|].
  assert (Hdots : forall m,
             Forall (fun b => is_dot b = true) (firstn m l) ->
             Forall (fun b => b <> newline) (firstn m l)).
  { intros m Hm. eapply Forall_impl; [|exact Hm].
    intros b Hb ->. discriminate Hb. }
  destruct (Ascii.eqb_spec a hash) as [->|Ha].
  - injection H as <-. split.
    + replace (S (dot_run l) - 1) with (dot_run l) by lia.
      apply Hdots, firstn_dot_run.
    + discriminate.
  - destruct (starts_with [hash; hash; hash] pre); [|discriminate].
    destruct (is_space a); [|discriminate]. cbn [andb] in H.
    destruct (last_mark l) as [j|] eqn:Hj; [|discriminate].
    injection H as <-. split; [|reflexivity].
    replace (S j - 1) with j by lia. apply Hdots. now apply last_mark_dots.
Qed.

Lemma look_plain l : Forall (fun a => a <> hash) l -> look l = false.
Proof.
  intros H. destruct l as [|s [|h1 [|h2 [|h3 l]]]]; try reflexivity.
  cbn [look]. inversion H as [|? ? _ H1]; subst.
  inversion H1 as [|? ? Hh _]; subst.
  destruct (Ascii.eqb_spec h1 hash); [contradiction|].
  now rewrite andb_false_r.
Qed.

Lemma last_mark_plain l : Forall (fun a => a <> hash) l -> last_mark l = None.
Proof.
  induction l as [|a l IH]; intros H; [reflexivity|]. cbn [last_mark].
  rewrite (look_plain H). inversion H; subst. rewrite IH by assumption.
  now destruct (is_dot a).
Qed.

Lemma last_mark_body body q :
  Forall (fun a => a <> hash /\ a <> newline) body ->
  last_mark (body ++ newline :: hash :: hash :: hash :: q) = Some (length body).
Proof.
  induction body as [|a body IH]; intros H.
  - reflexivity.
  - inversion H as [|? ? [_ Hn] Hrest]; subst. cbn [app last_mark length].
    rewrite (IH Hrest). unfold is_dot.
    destruct (Ascii.eqb_spec a newline); [contradiction | reflexivity].
Qed.

Lemma starts_with_cons_plain a pre :
  a <> hash -> starts_with [hash; hash; hash] (a :: pre) = false.
Proof.
  intros Ha. cbn [starts_with].
  destruct (Ascii.eqb_spec hash a) as [E|]; [now elim Ha | reflexivity].
Qed.

Lemma scan_copy repl p :
  forall pre rest,
    Forall (fun a => a <> hash) p ->
    starts_with [hash; hash; hash] pre = false ->
    scan expression repl pre (p ++ rest) 0
    = p ++ scan expression repl (rev p ++ pre) rest 0.
Proof.
  induction p as [|a p IH]; intros pre rest Hp Hpre; [reflexivity|].
  inversion Hp as [|? ? Ha Hp']; subst.
  cbn [app scan]. rewrite match_here_closed. unfold match_closed.
  destruct (Ascii.eqb_spec a hash); [contradiction|].
  rewrite Hpre. cbn [andb].
  rewrite (IH (a :: pre) rest Hp' (starts_with_cons_plain pre Ha)).
  cbn [rev]. now rewrite <- app_assoc.
Qed.

Lemma scan_skip r repl l1 :
  forall pre l2,
    scan r repl pre (l1 ++ l2) (length l1) = scan r repl (rev l1 ++ pre) l2 0.
Proof.
  induction l1 as [|a l1 IH]; intros pre l2; [reflexivity|].
  cbn [app length scan]. rewrite IH. cbn [rev]. now rewrite <- app_assoc.
Qed.

Lemma scan_step_none r repl pre a suf :
  match_here r pre (a :: suf) = None ->
  scan r repl pre (a :: suf) 0 = a :: scan r repl (a :: pre) suf 0.
Proof. intros H. cbn [scan]. now rewrite H. Qed.

Lemma scan_step_some r repl pre a suf n :
  match_here r pre (a :: suf) = Some (S n) ->
  scan r repl pre (a :: suf) 0 = repl ++ scan r repl (a :: pre) suf n.
Proof. intros H. cbn [scan]. now rewrite H. Qed.

(** At a [#] the rest of the line goes. *)
Lemma scan_hash pre l1 l2 :
  Forall (fun a => is_dot a = true) l1 ->
  dot_run l2 = 0 ->
  scan expression [] pre (hash :: l1 ++ l2) 0
  = scan expression [] (rev l1 ++ hash :: pre) l2 0.
Proof.
  intros H1 H2. cbn [scan]. rewrite match_here_closed. cbn [match_closed].
  replace (Ascii.eqb hash hash) with true by reflexivity. cbn [app].
  assert (E : dot_run (l1 ++ l2) = length l1).
  { clear pre. induction l1 as [|a l1 IH]; [exact H2|].
    inversion H1 as [|? ? Ha H1']; subst. cbn [app dot_run length].
    now rewrite Ha, (IH H1'). }
  rewrite E. apply scan_skip.
Qed.

Lemma scan_after_marker pre q :
  Forall (fun a => a <> hash) q ->
  dot_run q = 0 ->
  scan expression [] pre q 0 = q.
Proof.
  intros Hq Hrun. destruct q as [|a q]; [reflexivity|].
  cbn [dot_run] in Hrun. destruct (is_dot a) eqn:Ha; [discriminate|].
  inversion Hq as [|? ? Hh Hq']; subst.
  cbn [scan]. rewrite match_here_closed. unfold match_closed.
  destruct (Ascii.eqb_spec a hash); [contradiction|].
  rewrite (last_mark_plain Hq').
  replace (if starts_with [hash; hash; hash] pre && is_space a
           then option_map S None else None) with (@None nat)
    by (now destruct (starts_with [hash; hash; hash] pre && is_space a)).
  f_equal.
  rewrite <- (app_nil_r q) at 1.
  rewrite (scan_copy [] (a :: pre) [] Hq' (starts_with_cons_plain pre Hh)).
  apply app_nil_r.
Qed.

(** X8. A block comment of one line between its two markers is removed
    with the markers: of the text before, [###], a line break, a line
    without [#], a line break, [###] and the text after, there remain the
    text before, one line break and the text after.  One of the two line
    breaks goes with the comment. *)
Theorem clean_source_block_one_line (p body q : string) :
  Forall (fun a => a <> hash) (list_ascii_of_string p) ->
  Forall (fun a => a <> hash /\ a <> newline) (list_ascii_of_string body) ->
  Forall (fun a => a <> hash) (list_ascii_of_string q) ->
  dot_run (list_ascii_of_string q) = 0 ->
  clean_source (p ++ "###" ++ lf ++ body ++ lf ++ "###" ++ q)
  = (p ++ lf ++ q)%string.
Proof.
  intros Hp Hbody Hq Hrun. unfold clean_source, sub.
  rewrite !list_ascii_of_string_app.
  set (lp := list_ascii_of_string p) in *.
  set (lb := list_ascii_of_string body) in *.
  set (lq := list_ascii_of_string q) in *.
  change (list_ascii_of_string "###") with [hash; hash; hash].
  change (list_ascii_of_string lf) with [newline].
  change (list_ascii_of_string EmptyString) with (@nil ascii).
  rewrite <- (string_of_list_ascii_of_string (p ++ lf ++ q)).
  rewrite !list_ascii_of_string_app. fold lp lq.
  change (list_ascii_of_string lf) with [newline]. f_equal.
  rewrite (scan_copy [] [] _ Hp eq_refl). f_equal.
  cbn [app].
  change (hash :: hash :: hash
          :: newline :: lb ++ newline :: hash :: hash :: hash :: lq)
    with (hash :: [hash; hash]
          ++ newline :: lb ++ newline :: hash :: hash :: hash :: lq).
  rewrite (@scan_hash (rev lp ++ []) [hash; hash]
             (newline :: lb ++ newline :: hash :: hash :: hash :: lq))
    by (repeat constructor).
  set (pre1 := rev [hash; hash] ++ hash :: rev lp ++ []).
  set (tail := newline :: hash :: hash :: hash :: lq).
  assert (H1 : match_here expression pre1 (newline :: lb ++ tail)
               = Some (S (length lb))).
  { rewrite match_here_closed. unfold match_closed.
    replace (Ascii.eqb newline hash) with false by reflexivity.
    replace (starts_with [hash; hash; hash] pre1) with true by reflexivity.
    replace (is_space newline) with true by reflexivity. cbn [andb].
    unfold tail. now rewrite (last_mark_body lq Hbody). }
  rewrite (@scan_step_some _ [] _ _ _ _ H1). cbn [app]. rewrite scan_skip.
  set (pre2 := rev lb ++ newline :: pre1).
  assert (Hpre2 : starts_with [hash; hash; hash] pre2 = false).
  { unfold pre2. destruct (rev lb) as [|b rb] eqn:E.
    - reflexivity.
    - cbn [app]. apply starts_with_cons_plain.
      assert (Hin : In b (rev lb)) by (rewrite E; now left).
      apply in_rev in Hin. rewrite Forall_forall in Hbody.
      now apply Hbody in Hin. }
  assert (H2 : match_here expression pre2 tail = None).
  { rewrite match_here_closed. unfold tail, match_closed.
    replace (Ascii.eqb newline hash) with false by reflexivity.
    now rewrite Hpre2. }
  unfold tail in *. rewrite (@scan_step_none _ [] _ _ _ H2). f_equal.
  change (hash :: hash :: hash :: lq) with (hash :: [hash; hash] ++ lq).
  rewrite (@scan_hash (newline :: pre2) [hash; hash] lq)
    by (repeat constructor || exact Hrun).
  now apply scan_after_marker.
Qed.

End BlockFacts.

(** * More on the life cycle *)

Section StoryExtras.

Variables Ebnf Tree Artifact : Type.
Variable parser_parse : option Ebnf -> string -> bool -> result Tree.
Variable compiler_compile : Tree -> bool -> result Artifact.
Variable echo : exn -> option string -> string -> result unit.
Variable io_read : string -> result string.
Variable abspath : string -> string.

Local Abbreviation State := (state Ebnf Tree Artifact).
Local Abbreviation World := (world Ebnf Tree).
Local Abbreviation parse' := (parse parser_parse echo).
Local Abbreviation compile' := (compile compiler_compile echo).
Local Abbreviation process' := (process parser_parse compiler_compile echo).
Local Abbreviation error' := (@error Ebnf Tree Artifact echo).
Local Abbreviation read' := (@read Ebnf Tree io_read abspath).
Local Abbreviation from_file' := (@from_file Ebnf Tree Artifact io_read abspath).

(** X9. [error] never returns: it raises, whatever the mode and whatever
    [echo] does; it leaves the story as it is and adds at most the one event
    of the diagnostic. *)
Theorem error_never_returns (A : Type) e debug (st : State) :
  exists e' evs,
    error' A e debug st
    = (Raise e', {| self := self st; trace := trace st ++ evs |})
    /\ length evs <= 1.
Proof.
  rewrite error_run. destruct debug.
  - exists e, []. rewrite app_nil_r. destruct st. split; [reflexivity | simpl; lia].
  - cbv zeta.
    destruct (echo e (path (self st)) (story (self st))) as [u|e'].
    + exists (SystemExit None), [Echoed e (path (self st)) (story (self st))].
      split; [reflexivity | simpl; lia].
    + exists e', [Echoed e (path (self st)) (story (self st))].
      split; [reflexivity | simpl; lia].
Qed.

(** X10. An error of the parser that is no syntax failure passes through
    [parse] as it is, also without debug mode: nothing is rendered, the
    process is not ended, the story is unchanged. *)
Theorem parse_passes_other_errors ebnf debug (st : State) e :
  parser_parse ebnf (story (self st)) debug = Raise e ->
  syntax_failure e = false ->
  parse' ebnf debug st
  = (Raise e, {| self := self st;
                 trace := trace st ++ [ParserParse ebnf (story (self st)) debug] |}).
Proof. intros Hparse Hsyntax. now rewrite parse_run, Hparse, Hsyntax. Qed.

(** X11. [parse] touches nothing but the tree: the text, the path and the
    compiled result of the story are after it what they were before, whether
    it returns or raises.  A result compiled from an earlier tree stays. *)
Theorem parse_keeps_the_rest ebnf debug (st : State) :
  let st' := snd (parse' ebnf debug st) in
  story (self st') = story (self st)
  /\ path (self st') = path (self st)
  /\ compiled (self st') = compiled (self st).
Proof.
  cbv zeta. rewrite parse_run. cbv zeta.
  destruct (parser_parse ebnf (story (self st)) debug) as [t|e];
    [repeat split|].
  destruct (syntax_failure e); [|repeat split].
  rewrite error_run. destruct debug; [repeat split|]. cbn [self trace].
  destruct (echo e (path (self st)) (story (self st))); repeat split.
Qed.

(** X12. What [compile] does not catch passes through it as it is, in
    either mode, with nothing rendered and the process not ended: on a story
    that was never parsed, the attribute error of the missing tree, the
    compiler not being called; and an error of the compiler that is neither
    a [CompilerError] nor a [StorySyntaxError]. *)
Theorem compile_passes_other_errors debug (st : State) :
  (tree (self st) = None ->
   compile' debug st = (Raise (Exception AttributeError "tree"), st))
  /\ (forall t e,
        tree (self st) = Some t ->
        compiler_compile t debug = Raise e ->
        isinstance e CompilerError || isinstance e StorySyntaxError = false ->
        compile' debug st
        = (Raise e, {| self := self st;
                       trace := trace st ++ [CompilerCompile t debug] |})).
Proof.
  split.
  - intros H. now rewrite compile_run, H.
  - intros t e Ht Hc Hi. rewrite compile_run, Ht. cbv zeta.
    now rewrite Hc, Hi.
Qed.

(** X13. [compile] touches nothing but the compiled result, and that only
    when the compiler returned one: the text, the path and the tree stay,
    and when [compile] raises the compiled result stays too. *)
Theorem compile_keeps_the_rest debug (st : State) :
  let r := fst (compile' debug st) in
  let st' := snd (compile' debug st) in
  story (self st') = story (self st)
  /\ path (self st') = path (self st)
  /\ tree (self st') = tree (self st)
  /\ match r with
     | Return _ =>
         exists t a,
           tree (self st) = Some t /\ compiler_compile t debug = Return a
           /\ compiled (self st') = Some a
     | Raise _ => compiled (self st') = compiled (self st)
     end.
Proof.
  cbv zeta. rewrite compile_run.
  destruct (tree (self st)) as [t|] eqn:Ht; [|repeat split; exact Ht].
  cbv zeta. destruct (compiler_compile t debug) as [a|e] eqn:Hc.
  - cbn [fst snd self story path tree compiled]. repeat split; try assumption.
    exists t, a. repeat split; assumption.
  - destruct (isinstance e CompilerError || isinstance e StorySyntaxError);
      [|repeat split; assumption].
    rewrite error_run. destruct debug; [repeat split; assumption|].
    cbn [self trace].
    destruct (echo e (path (self st)) (story (self st)));
      repeat split; assumption.
Qed.

(** X14. When the parser and the compiler both return, [process] returns
    what the compiler returned for the tree of the parser, and the story
    holds that tree and that result; the parser was called once on the text
    of the story and then the compiler once on the tree. *)
Theorem process_returns_compiled ebnf debug (st : State) t a :
  parser_parse ebnf (story (self st)) debug = Return t ->
  compiler_compile t debug = Return a ->
  process' ebnf debug st
  = (Return a,
     {| self := {| story := story (self st); path := path (self st);
                   tree := Some t; compiled := Some a |};
        trace := trace st ++ [ParserParse ebnf (story (self st)) debug;
                              CompilerCompile t debug] |}).
Proof.
  intros Hparse Hc. unfold process, bind.
  rewrite parse_run, Hparse. cbv beta iota zeta.
  rewrite compile_run. cbn [self tree trace story path compiled].
  rewrite Hc. cbv beta iota zeta.
  unfold attribute, bind, get, ret. cbn [self compiled].
  now rewrite <- app_assoc.
Qed.

(** X15. [process] stores a compiled result only when it returns it: when
    it returns [a], the story holds [a], compiled from the tree it holds;
    when it raises, the compiled result of the story is what it was. *)
Theorem process_stores_what_it_returns ebnf debug (st : State) :
  let st' := snd (process' ebnf debug st) in
  match fst (process' ebnf debug st) with
  | Return a =>
      compiled (self st') = Some a
      /\ exists t,
           tree (self st') = Some t
           /\ parser_parse ebnf (story (self st)) debug = Return t
           /\ compiler_compile t debug = Return a
  | Raise _ => compiled (self st') = compiled (self st)
  end.
Proof.
  cbv zeta. unfold process, bind. rewrite parse_run. cbv zeta.
  destruct (parser_parse ebnf (story (self st)) debug) as [t|e] eqn:Hparse.
  - rewrite compile_run. cbn [self tree trace story path compiled].
    destruct (compiler_compile t debug) as [a|e] eqn:Hc.
    + unfold attribute, bind, get, ret. cbn [fst snd self compiled tree].
      split; [reflexivity|]. exists t. repeat split; assumption.
    + destruct (isinstance e CompilerError || isinstance e StorySyntaxError);
        [|reflexivity].
      rewrite error_run. destruct debug; [reflexivity|]. cbn [self trace path story].
      destruct (echo e (path (self st)) (story (self st))); reflexivity.
  - destruct (syntax_failure e); [|reflexivity].
    rewrite error_run. destruct debug; [reflexivity|]. cbn [self trace].
    destruct (echo e (path (self st)) (story (self st))); reflexivity.
Qed.

(** X16. After a parse that failed in debug mode, [compile] compiles the
    tree that an earlier parse left on the story, as if the failed parse had
    not happened. *)
Theorem compile_after_failed_parse ebnf debug (st : State) t e a :
  tree (self st) = Some t ->
  parser_parse ebnf (story (self st)) true = Raise e ->
  syntax_failure e = true ->
  compiler_compile t debug = Return a ->
  let st1 := snd (parse' ebnf true st) in
  fst (compile' debug st1) = Return tt
  /\ tree (self (snd (compile' debug st1))) = Some t
  /\ compiled (self (snd (compile' debug st1))) = Some a.
Proof.
  intros Ht Hparse Hsyntax Hc. cbv zeta.
  rewrite parse_run, Hparse, Hsyntax, error_run. cbv zeta. cbn [snd].
  rewrite compile_run. cbn [self tree]. rewrite Ht. cbv zeta. rewrite Hc.
  cbn [fst snd self tree compiled]. repeat split; try exact Ht.
Qed.

(** A fresh trace holds after [parse] the text of the story and no other. *)
Lemma parse_hands_one ebnf debug (s : Story Tree Artifact) :
  parsed_texts (trace (snd (parse' ebnf debug {| self := s; trace := [] |})))
  = [story s].
Proof.
  rewrite parse_run. cbv zeta. cbn [self trace].
  destruct (parser_parse ebnf (story s) debug) as [t|e]; [reflexivity|].
  destruct (syntax_failure e); [|reflexivity].
  rewrite error_run. destruct debug; [reflexivity|]. cbn [self trace].
  destruct (echo e (path s) (story s)); reflexivity.
Qed.

(** X17. The text of a story made by [from_file] holds no [#]; the story
    carries the path and neither tree nor compiled result, and what [parse]
    hands to the parser holds no [#] either. *)
Theorem from_file_story p contents (w : World) :
  io_read p = Return contents ->
  exists s,
    from_file' p w = (Return s, w)
    /\ path s = Some p /\ tree s = None /\ compiled s = None
    /\ Forall (fun a => a <> hash) (list_ascii_of_string (story s))
    /\ forall ebnf debug,
         Forall (fun text => Forall (fun a => a <> hash)
                               (list_ascii_of_string text))
           (parsed_texts
              (trace (snd (parse' ebnf debug {| self := s; trace := [] |})))).
Proof.
  intros Hread. exists (init (clean_source contents) (Some p)).
  assert (Hclean : Forall (fun a => a <> hash)
                     (list_ascii_of_string (clean_source contents))).
  { unfold clean_source, Re.sub. rewrite list_ascii_of_string_of_list_ascii.
    apply scan_no_hash. constructor. }
  split; [|repeat split; try exact Hclean].
  - unfold from_file, read, try, bind, call, ret. now rewrite Hread.
  - intros ebnf debug. rewrite parse_hands_one.
    constructor; [exact Hclean | constructor].
Qed.

(** X18. An error of the file system other than a missing file passes
    through [read] as it is: nothing is printed and the process is not
    ended. *)
Theorem read_passes_other_errors p e (w : World) :
  io_read p = Raise e ->
  isinstance e FileNotFoundError = false ->
  read' p w = (Raise e, w).
Proof.
  intros Hread Hclass. unfold read, try, bind, call, ret.
  now rewrite Hread, Hclass.
Qed.

(** X19. A story made by [from_stream] keeps its comments: the parser is
    handed the text of the stream as it is, while for the same text in a
    file the parser is handed the cleaned text. *)
Theorem from_stream_keeps_comments text p (w : World) ebnf debug :
  io_read p = Return text ->
  exists s1 s2,
    @from_stream Ebnf Tree Artifact (Return text) w = (Return s1, w)
    /\ from_file' p w = (Return s2, w)
    /\ parsed_texts (trace (snd (parse' ebnf debug {| self := s1; trace := [] |})))
       = [text]
    /\ parsed_texts (trace (snd (parse' ebnf debug {| self := s2; trace := [] |})))
       = [clean_source text].
Proof.
  intros Hread.
  exists (init text None), (init (clean_source text) (Some p)).
  repeat split.
  - unfold from_file, read, try, bind, call, ret. now rewrite Hread.
  - apply parse_hands_one.
  - apply parse_hands_one.
Qed.

End StoryExtras.

(** * More on the modules of a story *)

Section ModulesExtras.

Variables Ebnf Tree Artifact : Type.
Variable find_data : Tree -> string -> list Tree.
Variable node_string : Tree -> result Tree.
Variable node_child : Tree -> Z -> result Tree.
Variable node_value : Tree -> result string.

Local Abbreviation State := (state Ebnf Tree Artifact).
Local Abbreviation loop :=
  (@modules_loop Ebnf Tree Artifact node_string node_child node_value).
Local Abbreviation modules' :=
  (@modules Ebnf Tree Artifact find_data node_string node_child node_value).

Lemma modules_loop_state nodes :
  forall acc (st : State), snd (loop acc nodes st) = st.
Proof.
  induction nodes as [|n nodes IH]; intros acc st; cbn [modules_loop];
    [reflexivity|].
  unfold bind. rewrite modules_step_run.
  destruct (literal_of node_string node_child node_value n); [apply IH | reflexivity].
Qed.

Lemma modules_loop_returns nodes :
  forall acc (st st' : State) ps,
    loop acc nodes st = (Return ps, st') ->
    exists new,
      ps = acc ++ new /\ length new = length nodes
      /\ Forall (fun p => endswith p ".story" = true) new.
Proof.
  induction nodes as [|n nodes IH]; intros acc st st' ps; cbn [modules_loop].
  - unfold ret. intros H. injection H as <- _. exists [].
    rewrite app_nil_r. repeat split. constructor.
  - unfold bind. rewrite modules_step_run.
    destruct (literal_of node_string node_child node_value n) as [v|e];
      [|discriminate].
    intros H. destruct (IH _ _ _ _ H) as [new [H1 [H2 H3]]].
    exists (module_path v :: new). rewrite H1, <- app_assoc.
    repeat split; [simpl; now rewrite H2|].
    constructor; [apply module_path_suffix | exact H3].
Qed.

(** X20. [modules] only reads: whether it returns or fails, the story and
    the trace are after it what they were before; and on a story that was
    never parsed it fails with the attribute error of the missing tree. *)
Theorem modules_only_reads (st : State) :
  snd (modules' st) = st
  /\ (tree (self st) = None ->
      fst (modules' st) = Raise (Exception AttributeError "tree")).
Proof.
  unfold modules, attribute, bind, get, ret, raise.
  destruct (tree (self st)) as [t|]; split; try reflexivity; try discriminate.
  apply modules_loop_state.
Qed.

(** X21. When [modules] returns, it gives as many paths as the tree has
    import nodes, and every one of them ends with [.story]. *)
Theorem modules_result (st st' : State) ps :
  modules' st = (Return ps, st') ->
  exists t,
    tree (self st) = Some t
    /\ length ps = length (find_data t "imports")
    /\ Forall (fun p => endswith p ".story" = true) ps.
Proof.
  unfold modules, attribute, bind, get, ret, raise.
  destruct (tree (self st)) as [t|]; [|discriminate].
  intros H. apply modules_loop_returns in H. destruct H as [new [-> [H2 H3]]].
  exists t. repeat split; assumption.
Qed.

End ModulesExtras.

Lemma getslice_short (A : Type) (l : list A) :
  length l <= 2 -> getslice l 1 (-1) = [].
Proof.
  intros H. unfold getslice, adjust.
  replace (1 <? 0)%Z with false by reflexivity.
  replace (-1 <? 0)%Z with true by reflexivity.
  destruct l as [|a [|b [|c l]]]; try reflexivity. simpl in H. lia.
Qed.

(** X22. A literal of at most two characters, such as an empty pair of
    quotes, resolves to the bare suffix [.story]. *)
Theorem module_path_short (literal : string) :
  String.length literal <= 2 -> module_path literal = ".story"%string.
Proof.
  intros H. unfold module_path, strip_ends.
  rewrite getslice_short by (now rewrite length_list_ascii_of_string).
  reflexivity.
Qed.

(** * More on the lines of a story *)

Lemma getitem_in_range (A : Type) (l : list A) (n : Z) :
  (0 <= n < Z.of_nat (length l))%Z ->
  exists x,
    getitem l n = Return x
    /\ nth_error l (Z.to_nat n) = Some x
    /\ getitem l (n - Z.of_nat (length l)) = Return x.
Proof.
  intros H.
  destruct (nth_error l (Z.to_nat n)) as [x|] eqn:Hx;
    [|apply nth_error_None in Hx; lia].
  exists x. unfold getitem.
  replace (n <? 0)%Z with false by lia.
  replace (n - Z.of_nat (length l) <? 0)%Z with true by lia.
  replace (n - Z.of_nat (length l) + Z.of_nat (length l))%Z with n by lia.
  replace ((n <? 0) || (Z.of_nat (length l) <=? n))%Z with false by lia.
  rewrite Hx. repeat split.
Qed.

Lemma getslice_in_range (A : Type) (l : list A) (a b : Z) :
  (0 <= a <= b)%Z -> (b <= Z.of_nat (length l))%Z ->
  getslice l a b = firstn (Z.to_nat (b - a)) (skipn (Z.to_nat a) l)
  /\ length (getslice l a b) = Z.to_nat (b - a)
  /\ forall i, i < Z.to_nat (b - a) ->
       nth_error (getslice l a b) i = nth_error l (Z.to_nat a + i).
Proof.
  intros Hab Hb. unfold getslice, adjust.
  replace (a <? 0)%Z with false by lia. replace (b <? 0)%Z with false by lia.
  rewrite !Z.min_l by lia. split; [reflexivity|]. split.
  - rewrite length_firstn, length_skipn. lia.
  - intros i Hi. rewrite nth_error_firstn.
    replace (i <? Z.to_nat (b - a)) with true by (symmetry; apply Nat.ltb_lt; lia).
    apply nth_error_skipn.
Qed.

Lemma getslice_all (A : Type) (l : list A) (a b : Z) :
  (a <= - Z.of_nat (length l) \/ a = 0)%Z -> (Z.of_nat (length l) <= b)%Z ->
  getslice l a b = l.
Proof.
  intros Ha Hb. unfold getslice, adjust.
  replace (b <? 0)%Z with false by lia. rewrite Z.min_r by lia.
  assert (E : (if (a <? 0)%Z then Z.max 0 (a + Z.of_nat (length l))
               else Z.min a (Z.of_nat (length l))) = 0%Z).
  { destruct (a <? 0)%Z eqn:E; lia. }
  rewrite E. cbn [Z.to_nat skipn]. rewrite Z.sub_0_r, Nat2Z.id.
  apply firstn_all.
Qed.

Lemma getslice_empty (A : Type) (l : list A) (a b : Z) :
  (0 <= b <= a)%Z -> getslice l a b = [].
Proof.
  intros H. unfold getslice, adjust.
  replace (a <? 0)%Z with false by lia. replace (b <? 0)%Z with false by lia.
  replace (Z.to_nat (Z.min b (Z.of_nat (length l)) - Z.min a (Z.of_nat (length l))))
    with 0 by lia.
  reflexivity.
Qed.

Section LineExtras.

Variables Ebnf Tree Artifact : Type.

Local Abbreviation State := (state Ebnf Tree Artifact).

(** X23. For an index from 0 up to the number of lines, [line] returns the
    line at that index, and the same line is returned for that index minus
    the number of lines. *)
Theorem line_in_range (st : State) n :
  let lines := splitlines (story (self st)) in
  (0 <= n < Z.of_nat (length lines))%Z ->
  exists x,
    line n st = (Return x, st)
    /\ nth_error lines (Z.to_nat n) = Some x
    /\ line (n - Z.of_nat (length lines)) st = (Return x, st).
Proof.
  intros lines H. destruct (getitem_in_range lines H) as [x [H1 [H2 H3]]].
  exists x. unfold line, bind, get, call. fold lines. rewrite H1, H3.
  repeat split. exact H2.
Qed.

(** X24. For bounds with 0 <= start <= end <= the number of lines, [slice]
    returns end - start lines, and the line at place i of them is the line
    that [line] returns for start + i. *)
Theorem slice_in_range (st : State) a b :
  let lines := splitlines (story (self st)) in
  (0 <= a <= b)%Z -> (b <= Z.of_nat (length lines))%Z ->
  exists l,
    slice a b st = (Return l, st)
    /\ length l = Z.to_nat (b - a)
    /\ forall i x, nth_error l i = Some x ->
         line (a + Z.of_nat i) st = (Return x, st).
Proof.
  intros lines Hab Hb.
  destruct (getslice_in_range lines Hab Hb) as [_ [Hlen Hnth]].
  exists (getslice lines a b). split; [reflexivity|]. split; [exact Hlen|].
  intros i x Hx.
  assert (Hi : i < Z.to_nat (b - a)).
  { rewrite <- Hlen. apply nth_error_Some. congruence. }
  rewrite (Hnth i Hi) in Hx.
  assert (Hr : (0 <= a + Z.of_nat i < Z.of_nat (length lines))%Z) by lia.
  destruct (getitem_in_range lines Hr) as [y [H1 [H2 _]]].
  replace (Z.to_nat (a + Z.of_nat i)) with (Z.to_nat a + i) in H2 by lia.
  unfold line, bind, get, call. fold lines. rewrite H1. congruence.
Qed.

(** X25. [slice] cuts its bounds to the lines there are: from a start of 0,
    or of minus the number of lines or less, to an end of the number of
    lines or more it returns all lines; and it returns none when the end,
    not negative, is not beyond the start. *)
Theorem slice_clamps (st : State) a b :
  let lines := splitlines (story (self st)) in
  ((a <= - Z.of_nat (length lines) \/ a = 0)%Z ->
   (Z.of_nat (length lines) <= b)%Z ->
   slice a b st = (Return lines, st))
  /\ ((0 <= b <= a)%Z -> slice a b st = (Return [], st)).
Proof.
  intros lines. split.
  - intros Ha Hb. unfold slice, bind, get, ret. fold lines.
    now rewrite (getslice_all lines Ha Hb).
  - intros H. unfold slice, bind, get, ret. fold lines.
    now rewrite (getslice_empty lines H).
Qed.

End LineExtras.

Section SplitlinesExtras.

Local Abbreviation nb := (fun a : ascii => is_linebreak a = false).

Lemma splitlines_from_line line :
  forall cur rest,
    Forall nb line ->
    splitlines_from cur (line ++ newline :: rest)
    = (rev cur ++ line) :: splitlines_from [] rest.
Proof.
  induction line as [|a line IH]; intros cur rest H.
  - cbn [app splitlines_from].
    replace (is_linebreak newline) with true by reflexivity.
    rewrite app_nil_r. now destruct rest.
  - inversion H as [|? ? Ha H']; subst. cbn [app splitlines_from].
    cbv beta in Ha. rewrite Ha. rewrite (IH (a :: cur) rest H').
    cbn [rev]. now rewrite <- app_assoc.
Qed.

Lemma splitlines_from_last last :
  forall cur,
    Forall nb last ->
    splitlines_from cur last
    = match rev cur ++ last with [] => [] | _ :: _ => [rev cur ++ last] end.
Proof.
  induction last as [|a last IH]; intros cur H.
  - cbn [splitlines_from]. rewrite app_nil_r.
    destruct cur as [|c cur]; [reflexivity|].
    cbn [rev]. now destruct (rev cur).
  - inversion H as [|? ? Ha H']; subst. cbn [splitlines_from].
    cbv beta in Ha. rewrite Ha, (IH (a :: cur) H'). cbn [rev].
    now rewrite <- app_assoc.
Qed.

Lemma list_ascii_of_unlines lines :
  list_ascii_of_string (unlines lines)
  = flat_map (fun l => list_ascii_of_string l ++ [newline]) lines.
Proof.
  induction lines as [|l lines IH]; [reflexivity|].
  cbn [unlines fold_right flat_map]. fold (unlines lines).
  rewrite !list_ascii_of_string_app, IH. now rewrite <- app_assoc.
Qed.

(** Lines that hold no line boundary, written out with a line break after
    each and followed by an unfinished last line, are what [splitlines]
    gives back: the lines as they were, and the last line when it is not
    empty. *)
Lemma splitlines_unlines (lines : list string) (last : string) :
  Forall one_line lines ->
  one_line last ->
  splitlines (unlines lines ++ last)
  = lines ++ (if String.eqb last EmptyString then [] else [last]).
Proof.
  intros Hlines Hlast. unfold splitlines.
  rewrite list_ascii_of_string_app, list_ascii_of_unlines.
  induction Hlines as [|l lines Hl Hls IH].
  - cbn [flat_map app]. rewrite (splitlines_from_last [] Hlast). cbn [rev app].
    destruct last as [|a last]; [reflexivity|].
    cbn [list_ascii_of_string map String.eqb string_of_list_ascii].
    now rewrite string_of_list_ascii_of_string.
  - cbn [flat_map]. rewrite <- !app_assoc. cbn [app].
    rewrite (splitlines_from_line [] _ Hl). cbn [rev app map].
    now rewrite string_of_list_ascii_of_string, IH.
Qed.

Lemma splitlines_from_no_breaks n :
  forall text cur,
    length text <= n ->
    Forall nb cur ->
    Forall (Forall nb) (splitlines_from cur text).
Proof.
  induction n as [|n IH]; intros text cur Hn Hcur.
  - destruct text; [|simpl in Hn; lia]. cbn [splitlines_from].
    destruct cur; constructor; [now apply Forall_rev | constructor].
  - destruct text as [|a rest]; cbn [splitlines_from].
    + destruct cur; constructor; [now apply Forall_rev | constructor].
    + simpl in Hn. destruct (is_linebreak a) eqn:Ha.
      * constructor; [now apply Forall_rev|].
        destruct rest as [|b rest']; [apply IH; [simpl; lia | constructor]|].
        simpl in Hn.
        destruct (Ascii.eqb a carriage_return && Ascii.eqb b newline);
          apply IH; simpl; try lia; constructor.
      * apply IH; [lia|]. constructor; assumption.
Qed.

(** No line that [splitlines] gives holds a line boundary. *)
Lemma lines_hold_no_breaks (text : string) :
  Forall one_line (splitlines text).
Proof.
  unfold splitlines, one_line. apply Forall_map.
  eapply Forall_impl;
    [|apply (splitlines_from_no_breaks (n := length (list_ascii_of_string text)));
      [lia | constructor]].
  intros l Hl. now rewrite list_ascii_of_string_of_list_ascii.
Qed.

End SplitlinesExtras.

Lemma getitem_In (A : Type) (l : list A) (n : Z) (x : A) :
  getitem l n = Return x -> In x l.
Proof.
  unfold getitem.
  destruct (_ || _)%bool; [discriminate|].
  destruct (nth_error l _) as [y|] eqn:E; [|discriminate].
  intros H. injection H as <-. eapply nth_error_In; eauto.
Qed.

Section WrittenLines.

Variables Ebnf Tree Artifact : Type.

Local Abbreviation State := (state Ebnf Tree Artifact).

(** X26. When the text of a story is a list of lines, none of which holds a
    line boundary, written out with a line break after each, and after them
    an unfinished line, then [line(i)] returns the i-th of these lines. *)
Theorem line_of_written_text (st : State) (lines : list string) (last : string) :
  Forall one_line lines ->
  one_line last ->
  story (self st) = (unlines lines ++ last)%string ->
  forall i x,
    nth_error lines i = Some x -> line (Z.of_nat i) st = (Return x, st).
Proof.
  intros Hlines Hlast Htext i x Hx.
  unfold line, bind, get, call.
  rewrite Htext, (splitlines_unlines Hlines Hlast).
  set (all := lines ++ _).
  assert (Hi : i < length lines) by (apply nth_error_Some; congruence).
  assert (Hr : (0 <= Z.of_nat i < Z.of_nat (length all))%Z).
  { unfold all. rewrite length_app. lia. }
  destruct (getitem_in_range all Hr) as [y [H1 [H2 _]]].
  rewrite H1. rewrite Nat2Z.id in H2. unfold all in H2.
  rewrite nth_error_app1 in H2 by exact Hi. congruence.
Qed.

(** X27. No line that [line] or [slice] returns holds a line boundary. *)
Theorem returned_lines_hold_no_breaks (st : State) :
  (forall n x st', line n st = (Return x, st') -> one_line x)
  /\ (forall a b l st', slice a b st = (Return l, st') -> Forall one_line l).
Proof.
  pose proof (lines_hold_no_breaks (story (self st))) as Hall. split.
  - intros n x st'. unfold line, bind, get, call. intros H.
    injection H as H _. apply getitem_In in H.
    rewrite Forall_forall in Hall. now apply Hall.
  - intros a b l st'. unfold slice, bind, get, ret. intros H.
    injection H as <- _.
    destruct (getslice_segment (splitlines (story (self st))) a b)
      as [pre [post E]].
    rewrite E in Hall. apply Forall_app in Hall. destruct Hall as [_ Hall].
    apply Forall_app in Hall. now destruct Hall.
Qed.

End WrittenLines.

Section LexFacts.

Variables Ebnf Tree Artifact Tokens : Type.
Variable parser_lex : option Ebnf -> string -> result Tokens.

(** [lex] gives what the lexer gives for the text of the story and changes
    nothing. *)
Lemma lex_run ebnf (st : state Ebnf Tree Artifact) :
  lex parser_lex ebnf st = (parser_lex ebnf (story (self st)), st).
Proof. reflexivity. Qed.

End LexFacts.

(** X2. The texts that [clean_source] leaves as they are are those without
    [#]. *)
Theorem clean_source_fixed_points (text : string) :
  clean_source text = text
  <-> Forall (fun a => a <> hash) (list_ascii_of_string text).
Proof.
  split.
  - intros H. rewrite <- H. unfold clean_source, Re.sub.
    rewrite list_ascii_of_string_of_list_ascii. apply scan_no_hash. constructor.
  - intros H. unfold clean_source, Re.sub.
    rewrite (scan_plain _ (Forall_nil _) H).
    apply string_of_list_ascii_of_string.
Qed.

(** * The further properties on the sample instance *)

Section ExtraInstances.

Lemma clean_source_line_comments_sample :
  Closed.triple_free 0 (list_ascii_of_string ("a ## b" ++ lf ++ "c # d")) = true
  /\ clean_source ("a ## b" ++ lf ++ "c # d") = ("a " ++ lf ++ "c ")%string.
Proof.
  split; [reflexivity|].
  rewrite (clean_source_line_comments ("a ## b" ++ lf ++ "c # d") eq_refl).
  reflexivity.
Defined.

Lemma clean_source_keeps_line_breaks_sample :
  Closed.triple_free 0 (list_ascii_of_string ("a ## b" ++ lf ++ "c # d")) = true
  /\ count_occ ascii_dec
       (list_ascii_of_string (clean_source ("a ## b" ++ lf ++ "c # d"))) newline
     = 1.
Proof.
  split; [reflexivity|].
  rewrite (clean_source_keeps_line_breaks ("a ## b" ++ lf ++ "c # d") eq_refl).
  reflexivity.
Defined.

Lemma match_stays_on_line_sample :
  Re.match_here expression [hash; hash; hash]
    (list_ascii_of_string (lf ++ "hidden ###" ++ lf ++ "bar"))
  = Some 7
  /\ exists a l,
       list_ascii_of_string (lf ++ "hidden ###" ++ lf ++ "bar") = a :: l
       /\ Forall (fun b => b <> newline) (firstn (7 - 1) l)
       /\ (a = newline -> Re.starts_with [hash; hash; hash] [hash; hash; hash] = true).
Proof.
  split; [reflexivity|].
  apply (@match_stays_on_line [hash; hash; hash]
           (list_ascii_of_string (lf ++ "hidden ###" ++ lf ++ "bar")) 7).
  reflexivity.
Defined.

Lemma clean_source_block_one_line_sample :
  clean_source ("x = 1 " ++ "###" ++ lf ++ "hidden" ++ lf ++ "###" ++ (lf ++ "y"))
  = ("x = 1 " ++ lf ++ (lf ++ "y"))%string.
Proof.
  apply (clean_source_block_one_line "x = 1 " "hidden" (lf ++ "y")).
  - repeat constructor; discriminate.
  - repeat constructor; discriminate.
  - repeat constructor; discriminate.
  - reflexivity.
Defined.

Lemma parse_passes_other_errors_sample :
  Faulty.parser_parse None Sample.raw false = Raise Faulty.crash
  /\ syntax_failure Faulty.crash = false
  /\ parse Faulty.parser_parse Sample.echo None false (Sample.start Sample.raw)
     = (Raise Faulty.crash,
        {| self := self (Sample.start Sample.raw);
           trace := [ParserParse None Sample.raw false] |}).
Proof.
  split; [reflexivity|]. split; [reflexivity|].
  apply (@parse_passes_other_errors string Sample.node nat Faulty.parser_parse
           Sample.echo None false (Sample.start Sample.raw) Faulty.crash);
    reflexivity.
Defined.

Lemma compile_passes_other_errors_sample :
  tree (self (Sample.start Sample.raw)) = None
  /\ compile Sample.compiler_compile Sample.echo false (Sample.start Sample.raw)
     = (Raise (Exception AttributeError "tree"), Sample.start Sample.raw).
Proof.
  split; [reflexivity|].
  apply (proj1 (@compile_passes_other_errors string Sample.node nat
                  Sample.compiler_compile Sample.echo false
                  (Sample.start Sample.raw))).
  reflexivity.
Defined.

Lemma process_returns_compiled_sample :
  fst (Sample.process None false (Sample.start "import 'a'")) = Return 1.
Proof.
  unfold Sample.process.
  rewrite (@process_returns_compiled string Sample.node nat Sample.parser_parse
             Sample.compiler_compile Sample.echo None false
             (Sample.start "import 'a'")
             (Sample.Node "start" [Sample.import_node "import 'a'"]) 1
             eq_refl eq_refl).
  reflexivity.
Defined.

Lemma compile_after_failed_parse_sample :
  let st1 := snd (Sample.parse (Some "g"%string) true (Sample.parsed Sample.three)) in
  fst (Sample.parse (Some "g"%string) true (Sample.parsed Sample.three))
  = Raise Sample.failure
  /\ fst (compile Sample.compiler_compile Sample.echo false st1) = Return tt
  /\ compiled (self (snd (compile Sample.compiler_compile Sample.echo false st1)))
     = Some 3.
Proof.
  split; [reflexivity|].
  destruct (@compile_after_failed_parse string Sample.node nat
              Sample.parser_parse Sample.compiler_compile Sample.echo
              (Some "g"%string) false (Sample.parsed Sample.three)
              Sample.three Sample.failure 3
              eq_refl eq_refl eq_refl eq_refl) as [H1 [_ H3]].
  split; [exact H1 | exact H3].
Defined.

Lemma from_file_story_sample :
  exists s,
    Sample.from_file "hello.story" [] = (Return s, [])
    /\ path s = Some "hello.story"%string
    /\ Forall (fun a => a <> hash) (list_ascii_of_string (story s)).
Proof.
  destruct (@from_file_story string Sample.node nat Sample.parser_parse
              Sample.echo Sample.io_read Sample.abspath "hello.story"%string
              _ [] eq_refl) as [s [H1 [H2 [_ [_ [H5 _]]]]]].
  exists s. repeat split; assumption.
Defined.

Lemma read_passes_other_errors_sample :
  isinstance Faulty.denied FileNotFoundError = false
  /\ @read string Sample.node Faulty.io_read Sample.abspath "hello.story" []
     = (Raise Faulty.denied, []).
Proof.
  split; [reflexivity|].
  apply (@read_passes_other_errors string Sample.node Faulty.io_read
           Sample.abspath "hello.story"%string Faulty.denied []);
    reflexivity.
Defined.

Lemma from_stream_keeps_comments_sample :
  exists s1 s2,
    @from_stream string Sample.node nat (Return ("import 'a' # first" ++ lf ++ "import 'b'")%string) []
    = (Return s1, [])
    /\ Sample.from_file "hello.story" [] = (Return s2, [])
    /\ parsed_texts
         (trace (snd (Sample.parse None false {| self := s1; trace := [] |})))
       = [("import 'a' # first" ++ lf ++ "import 'b'")%string]
    /\ parsed_texts
         (trace (snd (Sample.parse None false {| self := s2; trace := [] |})))
       = [clean_source ("import 'a' # first" ++ lf ++ "import 'b'")].
Proof.
  exact (@from_stream_keeps_comments string Sample.node nat Sample.parser_parse
           Sample.echo Sample.io_read Sample.abspath _
           "hello.story"%string [] None false eq_refl).
Defined.

Lemma modules_result_sample :
  exists t,
    tree (self (Sample.parsed Sample.three)) = Some t
    /\ length ["a.story"; "b.story"; "a.story"]%string
       = length (Sample.find_data t "imports")
    /\ Forall (fun p => endswith p ".story" = true)
         ["a.story"; "b.story"; "a.story"]%string.
Proof.
  apply (@modules_result string Sample.node nat Sample.find_data
           Sample.node_string Sample.node_child Sample.node_value
           (Sample.parsed Sample.three) (Sample.parsed Sample.three)).
  reflexivity.
Defined.

Lemma module_path_short_sample :
  module_path (Sample.single_quoted EmptyString) = ".story"%string.
Proof.
  apply module_path_short. simpl. lia.
Defined.

Lemma line_in_range_sample :
  exists x,
    line 1 (Sample.start Sample.abc) = (Return x, Sample.start Sample.abc)
    /\ nth_error (splitlines Sample.abc) 1 = Some x
    /\ line (-2) (Sample.start Sample.abc) = (Return x, Sample.start Sample.abc).
Proof.
  apply (@line_in_range string Sample.node nat (Sample.start Sample.abc) 1%Z).
  vm_compute. split; [intros H; discriminate H | reflexivity].
Defined.

Lemma slice_in_range_sample :
  exists l,
    slice 1 3 (Sample.start Sample.abc) = (Return l, Sample.start Sample.abc)
    /\ length l = 2
    /\ forall i x, nth_error l i = Some x ->
         line (1 + Z.of_nat i) (Sample.start Sample.abc)
         = (Return x, Sample.start Sample.abc).
Proof.
  apply (@slice_in_range string Sample.node nat (Sample.start Sample.abc) 1%Z 3%Z).
  - vm_compute. split; intros H; discriminate H.
  - vm_compute. intros H; discriminate H.
Defined.

Lemma line_of_written_text_sample :
  story (self (Sample.start Sample.abc)) = (unlines ["a"; "b"]%string ++ "c")%string
  /\ line 1 (Sample.start Sample.abc) = (Return "b"%string, Sample.start Sample.abc).
Proof.
  split; [reflexivity|].
  apply (@line_of_written_text string Sample.node nat (Sample.start Sample.abc)
           ["a"; "b"]%string "c"%string) with (i := 1).
  - repeat constructor.
  - repeat constructor.
  - reflexivity.
  - reflexivity.
Defined.

End ExtraInstances.
